(** * Enigma rotor machine: a shallow embedding of enigma.hpp and util.hpp

    The development follows the header: [util::make_sorted_array], the
    operations of [std::bitset<base>] the rotor uses, the class [Rotor], the
    class [EnigmaMachine] with the callbacks its constructor wires, and the
    adaptor [Generator].

    Conventions.
    - [std::size_t] values are integers in [0, 2^64); every arithmetic
      operation of the source on them is followed by [wrap].  The loop
      counters declared [auto i = 0u] are 32-bit and wrap with [wrap32].
    - [IndexT] is an unsigned type whose largest value is [Index_max].
    - A [std::bitset<base>] is the integer whose binary digits are its bits,
      bit [i] of the bitset being digit [i].
    - A [std::array] is a list; reading or writing it out of range is
      undefined in the source and yields [None] here, as does a failed
      [assert] and a loop or a chain of callbacks that does not end. *)

From Stdlib Require Import ZArith Lia.
From stdpp Require Import base list.

Local Open Scope Z_scope.

(** ** Machine integers *)

Definition wrap (x : Z) : Z := x mod 2 ^ 64.
Definition wrap32 (x : Z) : Z := x mod 2 ^ 32.

(** ** Arrays *)

Definition at_index {A} (l : list A) (i : Z) : option A :=
  if 0 <=? i then l !! Z.to_nat i else None.

Definition store {A} (l : list A) (i : Z) (v : A) : option (list A) :=
  if (0 <=? i) && (i <? Z.of_nat (length l))
  then Some (<[Z.to_nat i := v]> l) else None.

(** ** A counted loop: [for (auto i = 0u; i < bound; ++i) body]

    The counter is an [unsigned]; the comparison is made in [std::size_t].
    The loop leaves after [bound] rounds when [bound < 2^32]; otherwise the
    counter wraps before it reaches [bound] and the loop never leaves, which
    the fuel [Z.to_nat bound] turns into [None]. *)

Fixpoint for_loop {St} (fuel : nat) (bound i : Z)
    (body : Z -> St -> option St) (s : St) : option St :=
  if i <? bound then
    match body i s with
    | Some s' =>
        match fuel with
        | O => None
        | S fuel' => for_loop fuel' bound (wrap32 (i + 1)) body s'
        end
    | None => None
    end
  else Some s.

Definition for_unsigned {St} (bound : Z) (body : Z -> St -> option St) (s : St)
    : option St :=
  for_loop (Z.to_nat bound) bound 0 body s.

(** ** util.hpp *)

Module util.

(** [make_sorted_array(a, b)]: the two arguments in ascending order. *)
Definition make_sorted_array (a b : Z) : Z * Z :=
  if b <? a then (b, a) else (a, b).

End util.

(** ** std::bitset<N>, as far as the rotor uses it *)

Module bitset.
Section Width.
Variable N : Z.

(** [bitset<N>{}] *)
Definition empty : Z := 0.

(** [~b] *)
Definition flip (b : Z) : Z := Z.lxor b (Z.ones N).

(** [b << k]: bits shifted beyond [N - 1] are dropped; a shift by [N]
    or more leaves no bit. *)
Definition shl (b k : Z) : Z := Z.land (Z.shiftl b k) (Z.ones N).

(** [b >> k] *)
Definition shr (b k : Z) : Z := Z.shiftr b k.

(** [a & b] *)
Definition and (a b : Z) : Z := Z.land a b.

(** [b[i]]: defined for [i < N] only. *)
Definition test (b i : Z) : option bool :=
  if (0 <=? i) && (i <? N) then Some (Z.testbit b i) else None.

Fixpoint count_below (n : nat) (b : Z) : Z :=
  match n with
  | O => 0
  | S k => count_below k b + Z.b2z (Z.testbit b (Z.of_nat k))
  end.

(** [b.count()]: the number of bits set. *)
Definition count (b : Z) : Z := count_below (Z.to_nat N) b.

End Width.
End bitset.

(** ** class Rotor *)

(** [TurnoverFunc], a [std::function<void(std::size_t)>].  Three kinds of
    callable occur: the rotor's default [ignoreTurnover]; a callable the
    client supplies, of which only the calls are observed; and the lambda
    of the [EnigmaMachine] constructor, [[&next_rotor](std::size_t knocks)
    { next_rotor.advance(knocks); }], that holds a reference to the rotor
    at an index of the machine's array. *)
Inductive TurnoverFunc : Type :=
  | ignoreTurnover
  | client_callback
  | advance_next_rotor (next_rotor : nat).

Record Rotor : Type := mkRotor {
  turnover_callback : TurnoverFunc;
  forward_cipher : list Z;
  reverse_cipher : list Z;
  position : Z;
  notches : Z
}.

Definition set_position (r : Rotor) (p : Z) : Rotor :=
  mkRotor (turnover_callback r) (forward_cipher r) (reverse_cipher r) p
          (notches r).

(** [setTurnoverCallback]; every [TurnoverFunc] above is non-empty, so the
    [assert(callback)] holds. *)
Definition setTurnoverCallback (r : Rotor) (callback : TurnoverFunc) : Rotor :=
  mkRotor callback (forward_cipher r) (reverse_cipher r) (position r)
          (notches r).

Definition getTurnoverCallback (r : Rotor) : TurnoverFunc :=
  turnover_callback r.

(** What one call of an [advance] overload does to the rotor itself: the
    rotor after the call, the argument with which [turnover_callback] is
    invoked ([None]: it is not invoked), and the value returned. *)
Record Advanced : Type := mkAdvanced {
  after : Rotor;
  knock : option Z;
  returned : Z
}.

Section Base.

(** The template parameters [base] and [IndexT], the latter through its
    largest value. *)
Variable base : Z.
Variable Index_max : Z.

Definition to_Index (x : Z) : Z := x mod (Index_max + 1).

(** One round of the constructor's loop,
    [reverse_cipher[cipher[i]] = i]. *)
Definition Rotor_new_round (cipher : list Z) (i : Z)
    (reverse_cipher : list Z) : option (list Z) :=
  match at_index cipher i with
  | Some c => store reverse_cipher c (to_Index i)
  | None => None
  end.

(** The constructor [Rotor(cipher, notches, callback)].  [uninit] stands
    for the indeterminate initial contents of [reverse_cipher], an array
    of [base] elements. *)
Definition Rotor_new (cipher : list Z) (notches : Z)
    (callback : TurnoverFunc) (uninit : list Z) : option Rotor :=
  match
    for_unsigned (Z.of_nat (length cipher)) (Rotor_new_round cipher) uninit
  with
  | Some table => Some (mkRotor callback cipher table 0 notches)
  | None => None
  end.

(** [advance()] *)
Definition Rotor_advance (r : Rotor) : option Advanced :=
  if position r <? base then
    let position1 := wrap (position r + 1) in
    let position2 := if position1 =? base then 0 else position1 in
    match bitset.test base (notches r) position2 with
    | Some notch =>
        Some (mkAdvanced (set_position r position2)
                         (if notch then Some 1 else None)
                         position2)
    | None => None
    end
  else None.

(** [advance(steps)] *)
Definition Rotor_advance_steps (r : Rotor) (steps : Z) : option Advanced :=
  let next := wrap (position r + steps) in
  let knocks := wrap ((next / base) * bitset.count base (notches r)) in
  let next := next mod base in
  let mask := bitset.flip base bitset.empty in
  let '(lead, trail) := util.make_sorted_array (position r) next in
  let mask :=
    bitset.shr (bitset.shl base mask (wrap (lead + wrap (base - trail))))
               lead in
  let mask := if next <? position r then bitset.flip base mask else mask in
  let knocks :=
    wrap (knocks + bitset.count base (bitset.and (notches r) mask)) in
  if next <? base then
    Some (mkAdvanced (set_position r next)
                     (if 0 <? knocks then Some knocks else None)
                     next)
  else None.

(** [doForwardCipher(val)] and [doReverseCipher(val)] *)
Definition doForwardCipher (r : Rotor) (val : Z) : option Z :=
  if val <? base
  then at_index (forward_cipher r) (wrap (position r + val) mod base)
  else None.

Definition doReverseCipher (r : Rotor) (val : Z) : option Z :=
  if val <? base
  then at_index (reverse_cipher r) (wrap (position r + val) mod base)
  else None.

End Base.

(** ** class EnigmaMachine *)

Record EnigmaMachine : Type := mkEnigmaMachine {
  rotors : list Rotor;
  reflector : list Z
}.

(** One round of the constructor's loop: a reference to [rotors[i + 1]]
    is taken, and [rotors[i]] gets the lambda that holds it. *)
Definition EnigmaMachine_new_round (i : Z) (rotors : list Rotor)
    : option (list Rotor) :=
  let next := wrap32 (i + 1) in
  match at_index rotors next, at_index rotors i with
  | Some _, Some r =>
      store rotors i
        (setTurnoverCallback r (advance_next_rotor (Z.to_nat next)))
  | _, _ => None
  end.

(** The constructor: the arrays are taken over as they are, then every
    rotor but the last gets the lambda that advances its successor.  The
    bound [rotors.size() - 1] is computed in [std::size_t]. *)
Definition EnigmaMachine_new (rotors : list Rotor) (reflector : list Z)
    : option EnigmaMachine :=
  match
    for_unsigned (wrap (Z.of_nat (length rotors) - 1))
      EnigmaMachine_new_round rotors
  with
  | Some rs => Some (mkEnigmaMachine rs reflector)
  | None => None
  end.

(** The state the member functions run in: the machine, and the arguments
    of the calls that client callbacks have received, latest first. *)
Record World : Type := mkWorld {
  machine : EnigmaMachine;
  observed : list Z
}.

(** State and failure. *)
Definition M (A : Type) : Type := World -> option (A * World).

Definition ret {A} (a : A) : M A := fun w => Some (a, w).

Definition bind {A B} (m : M A) (k : A -> M B) : M B :=
  fun w => match m w with
           | Some (a, w') => k a w'
           | None => None
           end.

Definition lift {A} (o : option A) : M A :=
  fun w => match o with
           | Some a => Some (a, w)
           | None => None
           end.

Notation "'let*' x ':=' m 'in' k" := (bind m (fun x => k))
  (at level 10, x name, m at level 100, k at level 200).

Definition get_rotor (i : nat) : M Rotor :=
  fun w => lift (rotors (machine w) !! i) w.

(** The world with one rotor replaced. *)
Definition with_rotor (i : nat) (r : Rotor) (w : World) : World :=
  mkWorld (mkEnigmaMachine (<[i := r]> (rotors (machine w)))
                           (reflector (machine w)))
          (observed w).

Definition put_rotor (i : nat) (r : Rotor) : M unit :=
  fun w =>
    if decide (i < length (rotors (machine w)))%nat
    then Some (tt, with_rotor i r w)
    else None.

Definition rotor_count : M nat :=
  fun w => Some (length (rotors (machine w)), w).

Definition get_reflector (i : Z) : M Z :=
  fun w => lift (at_index (reflector (machine w)) i) w.

Definition observe (knocks : Z) : M unit :=
  fun w => Some (tt, mkWorld (machine w) (knocks :: observed w)).

(** Folding a list of indices in the monad, for the iterator loops. *)
Fixpoint foldM {A B} (f : B -> A -> M B) (l : list A) (b : B) : M B :=
  match l with
  | [] => ret b
  | a :: l' => let* b' := f b a in foldM f l' b'
  end.

Section Machine.

Variable base : Z.
Variable Index_max : Z.

(** [rotors[i].advance(steps)], the callback included: the position is
    assigned first, then the callback runs.  [depth] bounds the chain of
    calls from callback to callback; a chain that does not end yields
    [None].  The lambdas of the constructor name a later rotor each, so
    their chain is never longer than the number of rotors. *)
Fixpoint advance_rotor (depth : nat) (i : nat) (steps : Z) : M unit :=
  match depth with
  | O => fun _ => None
  | S depth' =>
      let* r := get_rotor i in
      let* a := lift (Rotor_advance_steps base r steps) in
      let* _ := put_rotor i (after a) in
      match knock a with
      | None => ret tt
      | Some knocks =>
          match turnover_callback r with
          | ignoreTurnover => ret tt
          | client_callback => observe knocks
          | advance_next_rotor next => advance_rotor depth' next knocks
          end
      end
  end.

(** [advance(steps = 1u)] *)
Definition advance (steps : Z) : M unit :=
  let* n := rotor_count in
  advance_rotor n 0 steps.

(** [encode(val)] *)
Definition encode (val : Z) : M Z :=
  let* n := rotor_count in
  let* val :=
    foldM (fun val it =>
             let* r := get_rotor it in lift (doForwardCipher base r val))
          (seq 0 n) val in
  let* val := get_reflector val in
  foldM (fun val it =>
           let* r := get_rotor it in lift (doReverseCipher base r val))
        (reverse (seq 0 n)) val.

(** [encodeNext(val)] *)
Definition encodeNext (val : Z) : M Z :=
  let* _ := advance 1 in
  encode val.

(** ** class Generator

    The generator holds a reference to a machine, here the machine of
    the world it runs in, and the value [seq_val]. *)
Record Generator : Type := mkGenerator {
  seq_val : Z
}.

Definition Generator_new (seed : Z) : Generator := mkGenerator seed.

Definition Generator_min : Z := to_Index Index_max 0.

Definition Generator_max : Z := to_Index Index_max (wrap (base - 1)).

(** [operator()()]: the value returned and the generator after the call. *)
Definition Generator_call (g : Generator) : M (Z * Generator) :=
  let* v := encodeNext (seq_val g) in
  ret (v, mkGenerator v).

End Machine.

(** ** The tables of the demonstration program *)

Definition cipherI : list Z :=
  [4; 10; 12; 5; 11; 6; 3; 16; 21; 25; 13; 19; 14;
   22; 24; 7; 23; 20; 18; 15; 0; 8; 1; 17; 2; 9].

Definition cipherII : list Z :=
  [0; 9; 3; 10; 18; 8; 17; 20; 23; 1; 11; 7; 22;
   19; 12; 2; 16; 6; 25; 13; 15; 24; 5; 21; 14; 4].

Definition cipherIII : list Z :=
  [1; 3; 5; 7; 9; 11; 2; 15; 17; 19; 23; 21; 25;
   13; 24; 4; 8; 22; 6; 0; 10; 12; 20; 18; 16; 14].

Definition reflectorB : list Z :=
  [24; 17; 20; 7; 16; 18; 11; 3; 15; 23; 13; 6; 14;
   10; 12; 8; 4; 1; 5; 25; 2; 22; 21; 9; 0; 19].

(** The notch strings have their single [1] at bits 17, 5 and 22. *)
Definition notchesI : Z := 2 ^ 17.
Definition notchesII : Z := 2 ^ 5.
Definition notchesIII : Z := 2 ^ 22.

Definition uninit26 : list Z := repeat 0 26.

(** [Rotor{cipherIII, notchesIII}] and the like, with [std::uint8_t] for
    [IndexT]; the rotor of an unreadable table is never used. *)
Definition rotor_of (cipher : list Z) (notches : Z) : Rotor :=
  match Rotor_new 255 cipher notches ignoreTurnover uninit26 with
  | Some r => r
  | None => mkRotor ignoreTurnover [] [] 0 0
  end.

Definition rotorI : Rotor := Eval cbv in rotor_of cipherI notchesI.
Definition rotorII : Rotor := Eval cbv in rotor_of cipherII notchesII.
Definition rotorIII : Rotor := Eval cbv in rotor_of cipherIII notchesIII.

(** The machine of the demonstration program, [EnigmaMachine{std::array{
    Rotor{cipherIII, notchesIII}, Rotor{cipherII, notchesII},
    Rotor{cipherI, notchesI}}, reflectorB}], and the world it starts in. *)
Definition demo_machine : EnigmaMachine :=
  Eval cbv in
    match EnigmaMachine_new [rotorIII; rotorII; rotorI] reflectorB with
    | Some m => m
    | None => mkEnigmaMachine [] []
    end.

Definition demo_world : World := mkWorld demo_machine [].

(** ** Sequences of calls on one rotor *)

(** The calls that change a rotor.  The client's callback is taken not to
    touch the rotor it is installed on. *)
Inductive Call : Type :=
  | call_advance
  | call_advance_steps (steps : Z)
  | call_setTurnoverCallback (callback : TurnoverFunc).

Definition run_call (base : Z) (r : Rotor) (c : Call) : option Rotor :=
  match c with
  | call_advance => option_map after (Rotor_advance base r)
  | call_advance_steps steps =>
      option_map after (Rotor_advance_steps base r steps)
  | call_setTurnoverCallback callback => Some (setTurnoverCallback r callback)
  end.

Fixpoint run_calls (base : Z) (cs : list Call) (r : Rotor) : option Rotor :=
  match cs with
  | [] => Some r
  | c :: cs' =>
      match run_call base r c with
      | Some r' => run_calls base cs' r'
      | None => None
      end
  end.

(** What the callback was told in one call: the count, or nothing. *)
Definition knocks_of (a : Advanced) : Z :=
  match knock a with
  | Some k => k
  | None => 0
  end.

(** [n] calls of [advance()] in sequence: the rotor afterwards and the sum
    of the counts the callback received. *)
Fixpoint advance_times (base : Z) (n : nat) (r : Rotor) : option (Rotor * Z) :=
  match n with
  | O => Some (r, 0)
  | S n' =>
      match Rotor_advance base r with
      | Some a =>
          match advance_times base n' (after a) with
          | Some (r', total) => Some (r', knocks_of a + total)
          | None => None
          end
      | None => None
      end
  end.

(** ** The encipherment as the specification words it

    The value goes through the forward lookup of each rotor in assembly
    order, through the reflector, and through the reverse lookup of each
    rotor in reverse assembly order.  Both lookups read their table at
    [(position + val) mod base]. *)

Definition offset (base : Z) (r : Rotor) (val : Z) : Z :=
  (position r + val) mod base.

Definition forward_lookup (base : Z) (r : Rotor) (val : Z) : option Z :=
  at_index (forward_cipher r) (offset base r val).

Definition reverse_lookup (base : Z) (r : Rotor) (val : Z) : option Z :=
  at_index (reverse_cipher r) (offset base r val).

Fixpoint pass (lookup : Rotor -> Z -> option Z) (rs : list Rotor) (val : Z)
    : option Z :=
  match rs with
  | [] => Some val
  | r :: rs' =>
      match lookup r val with
      | Some v => pass lookup rs' v
      | None => None
      end
  end.

Definition composition (base : Z) (m : EnigmaMachine) (val : Z) : option Z :=
  match pass (forward_lookup base) (rotors m) val with
  | Some v =>
      match at_index (reflector m) v with
      | Some v' => pass (reverse_lookup base) (reverse (rotors m)) v'
      | None => None
      end
  | None => None
  end.

(** Two calls of [encode] in a row, nothing between them. *)
Definition encode_twice (base : Z) (val : Z) : M (Z * Z) :=
  let* a := encode base val in
  let* b := encode base val in
  ret (a, b).

(** [n] calls of the generator in sequence: the values returned, in order,
    and the generator afterwards. *)
Fixpoint draws (base : Z) (n : nat) (g : Generator) : M (list Z * Generator) :=
  match n with
  | O => ret ([], g)
  | S n' =>
      let* vg := Generator_call base g in
      let* rest := draws base n' (snd vg) in
      ret (fst vg :: fst rest, snd rest)
  end.

(** ** Valid states and derived forms *)

(** The rounds of a loop that leaves: the body applied to each index of a
    list in turn. *)
Fixpoint rounds {St} (body : Z -> St -> option St) (l : list nat) (s : St)
    : option St :=
  match l with
  | [] => Some s
  | i :: l' =>
      match body (Z.of_nat i) s with
      | Some s' => rounds body l' s'
      | None => None
      end
  end.

(** A table over [0, base): [base] entries, each in range, none twice. *)
Definition is_table (base : Z) (l : list Z) : Prop :=
  length l = Z.to_nat base /\ Forall (fun c => 0 <= c < base) l /\ NoDup l.

(** The inverse relation between the two tables of a rotor. *)
Definition inverse_tables (base : Z) (r : Rotor) : Prop :=
  forall i, 0 <= i < base ->
    exists c, at_index (forward_cipher r) i = Some c
              /\ at_index (reverse_cipher r) c = Some i.

(** A rotor in a state the machine can be in. *)
Definition wf_rotor (base : Z) (r : Rotor) : Prop :=
  0 <= position r < base
  /\ is_table base (forward_cipher r)
  /\ is_table base (reverse_cipher r).

(** [encode] as a function of the machine alone. *)
Definition encode_value (base : Z) (m : EnigmaMachine) (val : Z) : option Z :=
  match pass (doForwardCipher base) (rotors m) val with
  | Some v =>
      match at_index (reflector m) v with
      | Some v' => pass (doReverseCipher base) (reverse (rotors m)) v'
      | None => None
      end
  | None => None
  end.

(** The rotors as the constructor leaves them: each one but the last
    advances its successor. *)
Definition wire_upto (k : nat) (rs : list Rotor) : list Rotor :=
  imap (fun i r =>
          if decide (i < k)%nat
          then setTurnoverCallback r (advance_next_rotor (S i))
          else r)
       rs.

Definition wire (rs : list Rotor) : list Rotor :=
  wire_upto (length rs - 1) rs.

Definition wired (rs : list Rotor) : Prop :=
  forall i r, rs !! i = Some r ->
    ((S i < length rs)%nat -> turnover_callback r = advance_next_rotor (S i))
    /\ (S i = length rs -> forall j, turnover_callback r <> advance_next_rotor j).

(** A world the member functions can run in. *)
Definition wf_world (base : Z) (w : World) : Prop :=
  rotors (machine w) <> []
  /\ wired (rotors (machine w))
  /\ Forall (wf_rotor base) (rotors (machine w))
  /\ is_table base (reflector (machine w)).

(** ** Counting notches along an arc *)

(** The number of bits set among the [n] bits [lo], [lo + 1], ... *)
Fixpoint count_between (b : Z) (lo : Z) (n : nat) : Z :=
  match n with
  | O => 0
  | S n' => Z.b2z (Z.testbit b lo) + count_between b (lo + 1) n'
  end.

(** What the batch [advance(steps)] adds for the partial lap, read off its
    mask: the bits from [base - next] up to [base - position - 1] when
    [position <= next], and every bit outside [base - position] ..
    [base - next - 1] when [next < position]. *)
Definition partial_lap (base : Z) (b : Z) (position next : Z) : Z :=
  if next <? position
  then count_between b 0 (Z.to_nat (base - position))
       + count_between b (base - next) (Z.to_nat next)
  else count_between b (base - next) (Z.to_nat (next - position)).

(** The number of notches [n] single steps from [position] meet: the
    positions [(position + k) mod base] for [k] from 1 to [n]. *)
Fixpoint notches_met (base : Z) (b : Z) (position : Z) (n : nat) : Z :=
  match n with
  | O => 0
  | S n' =>
      notches_met base b position n'
      + Z.b2z (Z.testbit b ((position + Z.of_nat n) mod base))
  end.

(** ** Reflectors *)

(** A table that undoes itself, as the reflector of the real machine
    does. *)
Definition is_involution (base : Z) (l : list Z) : Prop :=
  forall v, 0 <= v < base ->
    exists c, 0 <= c < base /\ at_index l v = Some c /\ at_index l c = Some v.

Definition no_fixed_point (base : Z) (l : list Z) : Prop :=
  forall v, 0 <= v < base -> at_index l v <> Some v.

(** A rotor in its start position with its two tables inverse to each
    other. *)
Definition start_rotor (base : Z) (r : Rotor) : Prop :=
  wf_rotor base r /\ inverse_tables base r /\ position r = 0.

(** ** Sequences of calls on the machine *)

(** Two worlds with the same machine up to the positions of its rotors,
    the second having observed what the first had and possibly more. *)
Definition same_machine_moved (w w' : World) : Prop :=
  reflector (machine w') = reflector (machine w)
  /\ Forall2 (fun r r' => r' = set_position r (position r'))
             (rotors (machine w)) (rotors (machine w'))
  /\ exists more, observed w' = more ++ observed w.

Inductive Op : Type :=
  | op_advance (steps : Z)
  | op_encode (val : Z)
  | op_encodeNext (val : Z).

(** The world after one call and the value it returned, if any. *)
Definition run_op (base : Z) (w : World) (o : Op) : option (option Z * World) :=
  match o with
  | op_advance steps =>
      match advance base steps w with
      | Some (_, w') => Some (None, w')
      | None => None
      end
  | op_encode val =>
      match encode base val w with
      | Some (v, w') => Some (Some v, w')
      | None => None
      end
  | op_encodeNext val =>
      match encodeNext base val w with
      | Some (v, w') => Some (Some v, w')
      | None => None
      end
  end.

Fixpoint run_ops (base : Z) (os : list Op) (w : World) : option World :=
  match os with
  | [] => Some w
  | o :: os' =>
      match run_op base w o with
      | Some (_, w') => run_ops base os' w'
      | None => None
      end
  end.

(** A call within its precondition: the value to encipher is below
    [base]. *)
Definition op_in_range (base : Z) (o : Op) : Prop :=
  match o with
  | op_advance steps => True
  | op_encode val | op_encodeNext val => 0 <= val < base
  end.

(** * Properties *)

(** Decide the next comparison of the goal both ways. *)
Ltac split_comparison :=
  match goal with
  | |- context [?a <? ?b] => destruct (Z.ltb_spec a b)
  | |- context [?a <=? ?b] => destruct (Z.leb_spec a b)
  | |- context [?a =? ?b] => destruct (Z.eqb_spec a b)
  end.

(** ** Machine integers and arrays *)

Lemma wrap_small (x : Z) : 0 <= x < 2 ^ 64 -> wrap x = x.
Proof. intros H. unfold wrap. apply Z.mod_small. exact H. Qed.

Lemma wrap_range (x : Z) : 0 <= wrap x < 2 ^ 64.
Proof. unfold wrap. apply Z.mod_pos_bound. lia. Qed.

Lemma wrap32_small (x : Z) : 0 <= x < 2 ^ 32 -> wrap32 x = x.
Proof. intros H. unfold wrap32. apply Z.mod_small. exact H. Qed.

Lemma at_index_nat {A} (l : list A) (i : nat) :
  at_index l (Z.of_nat i) = l !! i.
Proof.
  unfold at_index. split_comparison; [|lia].
  now rewrite Nat2Z.id.
Qed.

Lemma at_index_is_Some {A} (l : list A) (i : Z) :
  0 <= i < Z.of_nat (length l) -> exists x, at_index l i = Some x.
Proof.
  intros H. unfold at_index. split_comparison; [|lia].
  destruct (lookup_lt_is_Some_2 l (Z.to_nat i)) as [x Hx]; [lia|].
  now exists x.
Qed.

Lemma at_index_elem_of {A} (l : list A) (i : Z) (x : A) :
  at_index l i = Some x -> x ∈ l.
Proof.
  unfold at_index. destruct (0 <=? i); [|discriminate].
  intros H. apply list_elem_of_lookup. now exists (Z.to_nat i).
Qed.

Lemma store_nat {A} (l : list A) (i : nat) (v : A) :
  (i < length l)%nat -> store l (Z.of_nat i) v = Some (<[i := v]> l).
Proof.
  intros H. unfold store. do 2 (split_comparison; [|lia]).
  simpl. now rewrite Nat2Z.id.
Qed.

Lemma store_in_range {A} (l : list A) (i : Z) (v : A) :
  0 <= i < Z.of_nat (length l) -> store l i v = Some (<[Z.to_nat i := v]> l).
Proof.
  intros H. unfold store. do 2 (split_comparison; [|lia]). reflexivity.
Qed.

(** ** The counted loop *)

Lemma for_loop_rounds {St} (body : Z -> St -> option St) (bound : nat) :
  Z.of_nat bound < 2 ^ 32 ->
  forall (k i fuel : nat) (s : St),
    (i + k = bound)%nat -> (k <= fuel)%nat ->
    for_loop fuel (Z.of_nat bound) (Z.of_nat i) body s
    = rounds body (seq i k) s.
Proof.
  intros Hb. induction k as [|k IH]; intros i fuel s Hik Hfuel.
  - destruct fuel; simpl; (split_comparison; [lia|reflexivity]).
  - destruct fuel as [|fuel]; [lia|]. simpl.
    split_comparison; [|lia].
    destruct (body (Z.of_nat i) s) as [s'|]; [|reflexivity].
    rewrite wrap32_small by lia.
    replace (Z.of_nat i + 1) with (Z.of_nat (S i)) by lia.
    apply IH; lia.
Qed.

Lemma for_unsigned_rounds {St} (body : Z -> St -> option St) (bound : nat)
    (s : St) :
  Z.of_nat bound < 2 ^ 32 ->
  for_unsigned (Z.of_nat bound) body s = rounds body (seq 0 bound) s.
Proof.
  intros Hb. unfold for_unsigned.
  apply (for_loop_rounds body bound Hb bound 0%nat); lia.
Qed.

Lemma rounds_app {St} (body : Z -> St -> option St) (l1 l2 : list nat)
    (s : St) :
  rounds body (l1 ++ l2) s
  = match rounds body l1 s with
    | Some s' => rounds body l2 s'
    | None => None
    end.
Proof.
  revert s. induction l1 as [|i l1 IH]; intros s; simpl; [reflexivity|].
  destruct (body (Z.of_nat i) s); [apply IH|reflexivity].
Qed.

(** With a bound of [2^32] or more the counter never reaches it. *)
Lemma for_loop_diverges {St} (body : Z -> St -> option St) (bound : Z) :
  2 ^ 32 <= bound ->
  forall (fuel : nat) (i : Z) (s : St),
    0 <= i < 2 ^ 32 -> for_loop fuel bound i body s = None.
Proof.
  intros Hb. induction fuel as [|fuel IH]; intros i s Hi; simpl.
  - split_comparison; [|lia]. destruct (body i s); reflexivity.
  - split_comparison; [|lia].
    destruct (body i s) as [s'|]; [|reflexivity].
    apply IH. unfold wrap32. apply Z.mod_pos_bound. lia.
Qed.

(** ** Bit sets *)

Lemma shl_all_out (N b k : Z) : 0 <= N <= k -> bitset.shl N b k = 0.
Proof.
  intros H. unfold bitset.shl. apply Z.bits_inj'. intros n Hn.
  rewrite Z.land_spec, Z.bits_0.
  destruct (Z.lt_ge_cases n N) as [Hlt|Hge].
  - rewrite Z.shiftl_spec_low by lia. reflexivity.
  - rewrite Z.ones_spec_high by lia. apply andb_false_r.
Qed.

Lemma count_below_0 (n : nat) : bitset.count_below n 0 = 0.
Proof.
  induction n as [|n IH]; simpl; [reflexivity|].
  rewrite IH, Z.bits_0. reflexivity.
Qed.

Lemma count_below_range (n : nat) (b : Z) :
  0 <= bitset.count_below n b <= Z.of_nat n.
Proof.
  induction n as [|n IH]; simpl; [lia|].
  destruct (Z.testbit b (Z.of_nat n)); simpl; lia.
Qed.

Lemma count_range (N b : Z) : 0 <= N -> 0 <= bitset.count N b <= N.
Proof.
  intros H. unfold bitset.count.
  pose proof (count_below_range (Z.to_nat N) b). lia.
Qed.

(** ** One rotor *)

Lemma set_position_same (r : Rotor) : set_position r (position r) = r.
Proof. destruct r. reflexivity. Qed.

Section RotorFacts.

Variable base : Z.
Hypothesis base_pos : 0 < base.

Lemma Rotor_advance_steps_total (r : Rotor) (steps : Z) :
  exists a, Rotor_advance_steps base r steps = Some a
            /\ after a = set_position r (wrap (position r + steps) mod base)
            /\ returned a = position (after a)
            /\ 0 <= position (after a) < base
            /\ match knock a with Some k => 0 < k < 2 ^ 64 | None => True end.
Proof.
  unfold Rotor_advance_steps.
  set (next := wrap (position r + steps) mod base).
  assert (Hn : 0 <= next < base) by (apply Z.mod_pos_bound; lia).
  destruct (util.make_sorted_array (position r) next) as [lead trail].
  match goal with
  | |- context [if 0 <? ?k then Some ?k else None] => set (knocks := k)
  end.
  assert (Hk : 0 <= knocks < 2 ^ 64) by apply wrap_range.
  destruct (Z.ltb_spec next base) as [_|]; [|lia].
  eexists. split; [reflexivity|]. simpl.
  repeat split; try lia.
  destruct (Z.ltb_spec 0 knocks); [lia|exact I].
Qed.

Lemma Rotor_advance_value (r : Rotor) :
  base < 2 ^ 64 ->
  0 <= position r < base ->
  Rotor_advance base r
  = let p := (position r + 1) mod base in
    Some (mkAdvanced (set_position r p)
                     (if Z.testbit (notches r) p then Some 1 else None)
                     p).
Proof.
  intros Hb Hp. unfold Rotor_advance, bitset.test.
  destruct (Z.ltb_spec (position r) base) as [_|]; [|lia].
  rewrite wrap_small by lia.
  destruct (Z.eqb_spec (position r + 1) base) as [E|E].
  - rewrite E, Z_mod_same_full. simpl.
    destruct (Z.ltb_spec 0 base); [reflexivity|lia].
  - rewrite (Z.mod_small (position r + 1)) by lia.
    destruct (Z.leb_spec 0 (position r + 1)); [|lia].
    destruct (Z.ltb_spec (position r + 1) base); [reflexivity|lia].
Qed.

(** One full revolution: the rotor is back where it was and the callback
    is told the number of notches, once. *)
Lemma Rotor_advance_steps_revolution (r : Rotor) :
  2 * base <= 2 ^ 64 ->
  0 <= position r < base ->
  Rotor_advance_steps base r base
  = Some (mkAdvanced r
            (if 0 <? bitset.count base (notches r)
             then Some (bitset.count base (notches r)) else None)
            (position r)).
Proof.
  intros Hb Hp. unfold Rotor_advance_steps.
  pose proof (count_range base (notches r) ltac:(lia)) as Hc.
  rewrite (wrap_small (position r + base)) by lia.
  replace ((position r + base) / base) with 1
    by (apply (Z.div_unique _ _ 1 (position r)); lia).
  replace ((position r + base) mod base) with (position r)
    by (apply (Z.mod_unique _ _ 1 (position r)); lia).
  unfold util.make_sorted_array.
  destruct (Z.ltb_spec (position r) (position r)) as [|_]; [lia|].
  rewrite (wrap_small (base - position r)) by lia.
  replace (position r + (base - position r)) with base by lia.
  rewrite (wrap_small base) by lia.
  rewrite shl_all_out by lia.
  unfold bitset.shr, bitset.and. rewrite Z.shiftr_0_l, Z.land_0_r.
  replace (bitset.count base 0) with 0
    by (unfold bitset.count; now rewrite count_below_0).
  rewrite Z.mul_1_l, Z.add_0_r.
  rewrite !(wrap_small (bitset.count base (notches r))) by lia.
  destruct (Z.ltb_spec (position r) base); [|lia].
  now rewrite set_position_same.
Qed.

Lemma run_call_total (r : Rotor) (c : Call) :
  base < 2 ^ 64 ->
  0 <= position r < base ->
  exists r', run_call base r c = Some r'
             /\ 0 <= position r' < base
             /\ forward_cipher r' = forward_cipher r
             /\ reverse_cipher r' = reverse_cipher r
             /\ notches r' = notches r.
Proof.
  intros Hb Hp. destruct c as [|steps|callback]; simpl.
  - rewrite Rotor_advance_value by assumption. simpl.
    eexists. split; [reflexivity|]. simpl.
    split; [apply Z.mod_pos_bound; lia|]. tauto.
  - destruct (Rotor_advance_steps_total r steps)
      as (a & -> & Ha & _ & Hr & _).
    simpl. eexists. split; [reflexivity|].
    split; [exact Hr|]. rewrite Ha. simpl. tauto.
  - eexists. split; [reflexivity|]. simpl. tauto.
Qed.

Lemma run_calls_total (cs : list Call) (r : Rotor) :
  base < 2 ^ 64 ->
  0 <= position r < base ->
  exists r', run_calls base cs r = Some r'
             /\ 0 <= position r' < base
             /\ forward_cipher r' = forward_cipher r
             /\ reverse_cipher r' = reverse_cipher r
             /\ notches r' = notches r.
Proof.
  intros Hb. revert r. induction cs as [|c cs IH]; intros r Hp; simpl.
  - exists r. tauto.
  - destruct (run_call_total r c Hb Hp) as (r1 & -> & Hp1 & Hf & Hr & Hn).
    destruct (IH r1 Hp1) as (r2 & -> & Hp2 & Hf2 & Hr2 & Hn2).
    exists r2. split; [reflexivity|]. split; [exact Hp2|].
    rewrite Hf2, Hr2, Hn2. tauto.
Qed.

End RotorFacts.

(** C6: with [position < base], [advance()] sets the position to
    [(position + 1) mod base], invokes the turnover callback with the
    count 1 exactly when the new position carries a notch, does not invoke
    it otherwise, and returns the new position. *)
Theorem Rotor_advance_single_step (base : Z) (r : Rotor) :
  0 < base < 2 ^ 64 ->
  0 <= position r < base ->
  exists a,
    Rotor_advance base r = Some a
    /\ after a = set_position r ((position r + 1) mod base)
    /\ (knock a = Some 1 <-> Z.testbit (notches r) (position (after a)) = true)
    /\ (knock a = None <-> Z.testbit (notches r) (position (after a)) = false)
    /\ returned a = (position r + 1) mod base.
Proof.
  intros [Hb1 Hb2] Hp.
  rewrite (Rotor_advance_value base Hb1 r Hb2 Hp). simpl.
  eexists. split; [reflexivity|]. simpl.
  split; [reflexivity|].
  destruct (Z.testbit (notches r) ((position r + 1) mod base));
    repeat split; intros; congruence.
Qed.

(** C7: after any sequence of [advance()] and [advance(steps)] calls, with
    any step counts, on a rotor whose position is in range, every call
    has returned and the position is in [0, base). *)
Theorem Rotor_position_in_range (base : Z) (cs : list Call) (r : Rotor) :
  0 < base < 2 ^ 64 ->
  0 <= position r < base ->
  exists r', run_calls base cs r = Some r' /\ 0 <= position r' < base.
Proof.
  intros [Hb1 Hb2] Hp.
  destruct (run_calls_total base Hb1 cs r Hb2 Hp) as (r' & Hrun & Hp' & _).
  exists r'. split; assumption.
Qed.

(** ** The rotor's constructor *)

Lemma is_table_onto (base : Z) (l : list Z) (c : Z) :
  is_table base l -> 0 <= c < base -> exists i, l !! i = Some c.
Proof.
  intros (Hlen & Hrange & Hnd) Hc.
  apply list_elem_of_lookup_1.
  assert (Hsub : l ⊆+ seqZ 0 base).
  { apply NoDup_submseteq; [exact Hnd|].
    intros x Hx. rewrite Forall_forall in Hrange.
    apply elem_of_seqZ. specialize (Hrange x Hx). lia. }
  apply submseteq_length_Permutation in Hsub;
    [|rewrite length_seqZ; lia].
  rewrite Hsub. apply elem_of_seqZ. lia.
Qed.

Section Constructor.

Variable Index_max : Z.
Variable cipher : list Z.
Variable uninit : list Z.

Hypothesis cipher_range :
  Forall (fun c => 0 <= c < Z.of_nat (length cipher)) cipher.
Hypothesis cipher_NoDup : NoDup cipher.
Hypothesis uninit_length : length uninit = length cipher.
Hypothesis Index_holds_base : Z.of_nat (length cipher) <= Index_max.


Lemma constructor_rounds (k : nat) :
  (k <= length cipher)%nat ->
  exists R,
    rounds (Rotor_new_round Index_max cipher) (seq 0 k) uninit
    = Some R
    /\ length R = length cipher
    /\ forall i c, (i < k)%nat -> cipher !! i = Some c ->
                   R !! Z.to_nat c = Some (Z.of_nat i).
Proof.
  induction k as [|k IH]; intros Hk.
  - exists uninit. simpl. split; [reflexivity|].
    split; [exact uninit_length|]. intros; lia.
  - destruct IH as (R & Hrun & Hlen & Hinv); [lia|].
    rewrite seq_S, rounds_app, Hrun. simpl.
    destruct (lookup_lt_is_Some_2 cipher k) as [c Hc]; [lia|].
    assert (Hcr : 0 <= c < Z.of_nat (length cipher)).
    { rewrite Forall_lookup in cipher_range. exact (cipher_range k c Hc). }
    unfold Rotor_new_round. rewrite at_index_nat, Hc.
    unfold to_Index. rewrite Z.mod_small by lia.
    rewrite store_in_range by lia.
    eexists. split; [reflexivity|].
    split; [now rewrite length_insert|].
    intros i c' Hi Hc'.
    destruct (decide (i = k)) as [->|Hne].
    + rewrite Hc in Hc'. injection Hc' as <-.
      apply list_lookup_insert_eq. lia.
    + assert (Hcr' : 0 <= c' < Z.of_nat (length cipher)).
      { rewrite Forall_lookup in cipher_range.
        exact (cipher_range i c' Hc'). }
      rewrite list_lookup_insert_ne.
      * apply Hinv; [lia|exact Hc'].
      * intros E. apply Hne.
        assert (c = c') as <- by lia.
        exact (NoDup_lookup _ _ _ _ cipher_NoDup Hc' Hc).
Qed.

Lemma Rotor_new_value (notches : Z) (callback : TurnoverFunc) :
  Z.of_nat (length cipher) < 2 ^ 32 ->
  exists R,
    Rotor_new Index_max cipher notches callback uninit
    = Some (mkRotor callback cipher R 0 notches)
    /\ length R = length cipher
    /\ forall i c, cipher !! i = Some c ->
                   R !! Z.to_nat c = Some (Z.of_nat i).
Proof.
  intros Hsmall.
  destruct (constructor_rounds (length cipher))
    as (R & Hrun & Hlen & Hinv); [lia|].
  exists R. unfold Rotor_new.
  rewrite for_unsigned_rounds by exact Hsmall.
  rewrite Hrun. split; [reflexivity|]. split; [exact Hlen|].
  intros i c Hc. apply Hinv; [|exact Hc].
  apply lookup_lt_Some in Hc. exact Hc.
Qed.

End Constructor.

(** The table the constructor derives is a table again. *)
Lemma reverse_is_table (base : Z) (cipher R : list Z) :
  is_table base cipher ->
  length R = Z.to_nat base ->
  (forall i c, cipher !! i = Some c ->
               R !! Z.to_nat c = Some (Z.of_nat i)) ->
  is_table base R.
Proof.
  intros Hc Hlen Hinv.
  assert (Hall : forall j x, R !! j = Some x ->
                   cipher !! Z.to_nat x = Some (Z.of_nat j) /\ 0 <= x < base).
  { intros j x Hj.
    assert (Hjb : 0 <= Z.of_nat j < base)
      by (apply lookup_lt_Some in Hj; lia).
    destruct (is_table_onto base cipher (Z.of_nat j) Hc Hjb) as [i Hi].
    pose proof (Hinv i _ Hi) as Hr. rewrite Nat2Z.id, Hj in Hr.
    injection Hr as ->. rewrite Nat2Z.id.
    split; [exact Hi|]. apply lookup_lt_Some in Hi.
    destruct Hc as (Hl & _). lia. }
  split; [exact Hlen|]. split.
  - apply Forall_lookup. intros j x Hj. apply (Hall j x Hj).
  - apply NoDup_alt. intros j1 j2 x H1 H2.
    destruct (Hall j1 x H1) as [E1 _]. destruct (Hall j2 x H2) as [E2 _].
    rewrite E1 in E2. injection E2 as E2. lia.
Qed.

(** A rotor constructed from a table is in a state the machine can be
    in. *)
Lemma Rotor_new_wf (base Index_max : Z) (F uninit : list Z) (notches : Z)
    (callback : TurnoverFunc) (r : Rotor) :
  0 < base < 2 ^ 32 ->
  base <= Index_max ->
  is_table base F ->
  length uninit = Z.to_nat base ->
  Rotor_new Index_max F notches callback uninit = Some r ->
  wf_rotor base r.
Proof.
  intros Hb Hidx Ht Hu Hnew.
  pose proof Ht as (Hlen & Hrange & Hnd).
  assert (Hn : Z.of_nat (length F) = base) by lia.
  destruct (Rotor_new_value Index_max F uninit) with (notches := notches)
    (callback := callback) as (R & HR & Hrl & Hinv).
  { now rewrite Hn. }
  { exact Hnd. }
  { lia. }
  { lia. }
  { lia. }
  rewrite HR in Hnew. injection Hnew as <-.
  split; [simpl; lia|]. split; [exact Ht|]. simpl.
  apply (reverse_is_table base F R Ht); [lia|exact Hinv].
Qed.

(** C4: a rotor constructed from a table [F] over [0, base) has a reverse
    table [R] with [R[F[i]] = i] for every [i] in [0, base); no call
    changes either table, so the relation holds after any sequence of
    calls.  The constructor returns when [base < 2^32]. *)
Theorem reverse_cipher_is_inverse (base Index_max : Z) (F uninit : list Z)
    (notches : Z) (callback : TurnoverFunc) :
  0 < base ->
  base <= Index_max ->
  is_table base F ->
  length uninit = Z.to_nat base ->
  (base < 2 ^ 32 ->
   exists r, Rotor_new Index_max F notches callback uninit = Some r)
  /\ forall r,
       Rotor_new Index_max F notches callback uninit = Some r ->
       forward_cipher r = F
       /\ inverse_tables base r
       /\ forall cs, exists r',
            run_calls base cs r = Some r'
            /\ forward_cipher r' = F
            /\ reverse_cipher r' = reverse_cipher r
            /\ inverse_tables base r'.
Proof.
  intros Hb Hidx (Hlen & Hrange & Hnd) Hu.
  assert (Hn : Z.of_nat (length F) = base) by lia.
  destruct (Z.lt_ge_cases base (2 ^ 32)) as [Hsmall|Hlarge].
  - destruct (Rotor_new_value Index_max F uninit) with (notches := notches)
      (callback := callback) as (R & Hnew & Hrl & Hinv).
    { now rewrite Hn. }
    { exact Hnd. }
    { lia. }
    { lia. }
    { lia. }
    split; [intros _; eexists; exact Hnew|].
    intros r Hr. rewrite Hnew in Hr. injection Hr as <-.
    assert (Hrel : inverse_tables base
                     (mkRotor callback F R 0 notches)).
    { intros i Hi. simpl.
      destruct (lookup_lt_is_Some_2 F (Z.to_nat i)) as [c Hc]; [lia|].
      exists c. unfold at_index.
      destruct (Z.leb_spec 0 i); [|lia]. split; [exact Hc|].
      assert (0 <= c < base)
        by (rewrite Forall_lookup in Hrange; exact (Hrange _ _ Hc)).
      destruct (Z.leb_spec 0 c); [|lia].
      rewrite (Hinv _ _ Hc). f_equal. lia. }
    split; [reflexivity|]. split; [exact Hrel|].
    intros cs.
    destruct (run_calls_total base ltac:(lia) cs
                (mkRotor callback F R 0 notches))
      as (r' & Hrun & _ & Hf & Hr & _); [lia|simpl; lia|].
    exists r'. split; [exact Hrun|]. split; [exact Hf|]. split; [exact Hr|].
    intros i Hi. rewrite Hf, Hr. exact (Hrel i Hi).
  - split; [intros; lia|].
    intros r Hr. unfold Rotor_new, for_unsigned in Hr.
    rewrite for_loop_diverges in Hr by lia. discriminate.
Qed.

(** ** Encipherment *)

Lemma is_table_lookup (base : Z) (l : list Z) (i : Z) :
  is_table base l -> 0 <= i < base ->
  exists c, at_index l i = Some c /\ 0 <= c < base.
Proof.
  intros (Hlen & Hrange & _) Hi.
  destruct (at_index_is_Some l i) as [c Hc]; [lia|].
  exists c. split; [exact Hc|].
  rewrite Forall_forall in Hrange. apply Hrange.
  exact (at_index_elem_of _ _ _ Hc).
Qed.

(** The loops of [encode] read the rotors and leave the world as it is. *)
Lemma foldM_get_rotor (f : Rotor -> Z -> option Z) (w : World) :
  forall (its : list nat) (rs : list Rotor) (val : Z),
    Forall2 (fun it r => rotors (machine w) !! it = Some r) its rs ->
    foldM (fun val it => let* r := get_rotor it in lift (f r val)) its val w
    = lift (pass f rs val) w.
Proof.
  intros its rs val H. revert val.
  induction H as [|it r its rs Hit _ IH]; intros val; simpl.
  - reflexivity.
  - unfold bind at 1. unfold bind at 1. unfold get_rotor at 1.
    rewrite Hit. simpl. unfold lift at 1.
    destruct (f r val) as [v|]; [apply IH|reflexivity].
Qed.

Lemma rotors_in_order (l : list Rotor) :
  Forall2 (fun it r => l !! it = Some r) (seq 0 (length l)) l.
Proof.
  apply Forall2_same_length_lookup_2; [apply length_seq|].
  intros i it r Hit Hr. apply lookup_seq in Hit as [-> _]. exact Hr.
Qed.

Lemma encode_reads (base : Z) (val : Z) (w : World) :
  encode base val w = lift (encode_value base (machine w) val) w.
Proof.
  unfold encode, encode_value.
  unfold bind at 1. unfold rotor_count at 1.
  unfold bind at 1.
  rewrite (foldM_get_rotor (doForwardCipher base) w _ (rotors (machine w)))
    by apply rotors_in_order.
  unfold lift at 1.
  destruct (pass (doForwardCipher base) (rotors (machine w)) val) as [v|];
    [|reflexivity].
  unfold bind at 1. unfold get_reflector at 1. unfold lift at 1.
  destruct (at_index (reflector (machine w)) v) as [v'|]; [|reflexivity].
  apply foldM_get_rotor. apply Forall2_reverse, rotors_in_order.
Qed.

Section Lookups.

Variable base : Z.
Hypothesis base_pos : 0 < base.
Hypothesis base_fits : 2 * base <= 2 ^ 64.

Lemma doForwardCipher_value (r : Rotor) (val : Z) :
  wf_rotor base r -> 0 <= val < base ->
  exists v, doForwardCipher base r val = Some v
            /\ forward_lookup base r val = Some v
            /\ 0 <= v < base.
Proof.
  intros (Hp & Hf & _) Hv.
  unfold doForwardCipher, forward_lookup, offset.
  destruct (Z.ltb_spec val base); [|lia].
  rewrite wrap_small by lia.
  destruct (is_table_lookup base (forward_cipher r)
              ((position r + val) mod base) Hf) as (c & Hc & Hr).
  { apply Z.mod_pos_bound. lia. }
  exists c. auto.
Qed.

Lemma doReverseCipher_value (r : Rotor) (val : Z) :
  wf_rotor base r -> 0 <= val < base ->
  exists v, doReverseCipher base r val = Some v
            /\ reverse_lookup base r val = Some v
            /\ 0 <= v < base.
Proof.
  intros (Hp & _ & Hf) Hv.
  unfold doReverseCipher, reverse_lookup, offset.
  destruct (Z.ltb_spec val base); [|lia].
  rewrite wrap_small by lia.
  destruct (is_table_lookup base (reverse_cipher r)
              ((position r + val) mod base) Hf) as (c & Hc & Hr).
  { apply Z.mod_pos_bound. lia. }
  exists c. auto.
Qed.

Lemma pass_value (code words : Rotor -> Z -> option Z) :
  (forall r val, wf_rotor base r -> 0 <= val < base ->
     exists v, code r val = Some v /\ words r val = Some v
               /\ 0 <= v < base) ->
  forall rs val,
    Forall (wf_rotor base) rs -> 0 <= val < base ->
    exists v, pass code rs val = Some v /\ pass words rs val = Some v
              /\ 0 <= v < base.
Proof.
  intros Hstep rs. induction rs as [|r rs IH]; intros val Hwf Hv; simpl.
  - exists val. auto.
  - apply Forall_cons in Hwf as [Hr Hrs].
    destruct (Hstep r val Hr Hv) as (v & -> & -> & Hv').
    exact (IH v Hrs Hv').
Qed.

Lemma encode_value_composition (m : EnigmaMachine) (val : Z) :
  Forall (wf_rotor base) (rotors m) ->
  is_table base (reflector m) ->
  0 <= val < base ->
  exists v, encode_value base m val = Some v
            /\ composition base m val = Some v
            /\ 0 <= v < base.
Proof.
  intros Hwf Hrefl Hv. unfold encode_value, composition.
  destruct (pass_value _ _ doForwardCipher_value (rotors m) val Hwf Hv)
    as (v1 & -> & -> & Hv1).
  destruct (is_table_lookup base (reflector m) v1 Hrefl Hv1)
    as (v2 & -> & Hv2).
  apply (pass_value _ _ doReverseCipher_value); [|exact Hv2].
  apply Forall_reverse. exact Hwf.
Qed.

End Lookups.

(** C3: for a machine whose tables are tables over [0, base) and whose
    rotors are in position, and for [val < base], [encode(val)] returns the
    value of the composition: the forward lookups
    [forwardCipher[(position + val) mod base]] in assembly order, the
    reflector, the reverse lookups [reverseCipher[(position + val) mod
    base]] in reverse assembly order; both directions add the position to
    the input index. *)
Theorem encode_is_composition (base : Z) (w : World) (val : Z) :
  0 < base ->
  2 * base <= 2 ^ 64 ->
  Forall (wf_rotor base) (rotors (machine w)) ->
  is_table base (reflector (machine w)) ->
  0 <= val < base ->
  exists v,
    encode base val w = Some (v, w)
    /\ composition base (machine w) val = Some v
    /\ 0 <= v < base
    /\ forall r x, wf_rotor base r -> 0 <= x < base ->
         doForwardCipher base r x
         = at_index (forward_cipher r) ((position r + x) mod base)
         /\ doReverseCipher base r x
            = at_index (reverse_cipher r) ((position r + x) mod base).
Proof.
  intros Hb1 Hb2 Hwf Hrefl Hv.
  destruct (encode_value_composition base Hb1 Hb2 (machine w) val Hwf Hrefl Hv)
    as (v & Hcode & Hwords & Hr).
  exists v. rewrite encode_reads, Hcode. split; [reflexivity|].
  split; [exact Hwords|]. split; [exact Hr|].
  intros r x Hwr Hx. split.
  - destruct (doForwardCipher_value base Hb1 Hb2 r x Hwr Hx)
      as (c & -> & Hc & _). symmetry. exact Hc.
  - destruct (doReverseCipher_value base Hb1 Hb2 r x Hwr Hx)
      as (c & -> & Hc & _). symmetry. exact Hc.
Qed.

(** C5: [encode(val)] changes no rotor position and nothing else of the
    machine; two calls in a row with no [advance] between them return the
    same value.  For a machine in a valid state and [val < base] the call
    returns. *)
Theorem encode_does_not_mutate (base : Z) (w : World) (val : Z) :
  (forall v w', encode base val w = Some (v, w') ->
     w' = w /\ encode_twice base val w = Some ((v, v), w))
  /\ (0 < base -> 2 * base <= 2 ^ 64 ->
      Forall (wf_rotor base) (rotors (machine w)) ->
      is_table base (reflector (machine w)) ->
      0 <= val < base ->
      exists v, encode base val w = Some (v, w)).
Proof.
  split.
  - intros v w' H. rewrite encode_reads in H. unfold lift in H.
    destruct (encode_value base (machine w) val) as [v0|] eqn:E;
      [|discriminate].
    injection H as <- <-. split; [reflexivity|].
    unfold encode_twice, bind.
    rewrite encode_reads, E. simpl. rewrite encode_reads, E. reflexivity.
  - intros Hb1 Hb2 Hwf Hrefl Hv.
    destruct (encode_value_composition base Hb1 Hb2 (machine w) val
                Hwf Hrefl Hv) as (v & Hcode & _).
    exists v. now rewrite encode_reads, Hcode.
Qed.

(** ** The machine's constructor *)

Lemma for_loop_invariant {St} (P : St -> Prop)
    (body : Z -> St -> option St) :
  (forall i s s', P s -> body i s = Some s' -> P s') ->
  forall fuel bound i s s',
    P s -> for_loop fuel bound i body s = Some s' -> P s'.
Proof.
  intros Hbody. induction fuel as [|fuel IH]; intros bound i s s' Hs; simpl.
  - destruct (i <? bound); [|congruence].
    destruct (body i s); discriminate.
  - destruct (i <? bound); [|congruence].
    destruct (body i s) as [s1|] eqn:E; [|discriminate].
    apply IH. exact (Hbody i s s1 Hs E).
Qed.

Lemma length_wire_upto (k : nat) (rs : list Rotor) :
  length (wire_upto k rs) = length rs.
Proof. unfold wire_upto. apply length_imap. Qed.

Lemma wire_upto_step (k : nat) (rs : list Rotor) (r : Rotor) :
  rs !! k = Some r ->
  <[k := setTurnoverCallback r (advance_next_rotor (S k))]> (wire_upto k rs)
  = wire_upto (S k) rs.
Proof.
  intros Hk. apply list_eq. intros i.
  destruct (decide (i = k)) as [->|Hne].
  - rewrite list_lookup_insert_eq
      by (rewrite length_wire_upto; exact (lookup_lt_Some _ _ _ Hk)).
    unfold wire_upto. rewrite list_lookup_imap, Hk. simpl.
    destruct (decide (k < S k)%nat); [reflexivity|lia].
  - rewrite list_lookup_insert_ne by congruence.
    unfold wire_upto. rewrite !list_lookup_imap.
    destruct (rs !! i) as [x|]; [|reflexivity]. simpl.
    destruct (decide (i < k)%nat), (decide (i < S k)%nat);
      try reflexivity; lia.
Qed.

Section MachineConstructor.

Variable rs : list Rotor.
Hypothesis some_rotor : (0 < length rs)%nat.
Hypothesis count_small : Z.of_nat (length rs) - 1 < 2 ^ 32.

Lemma wiring_rounds (k : nat) :
  (S k <= length rs)%nat ->
  rounds EnigmaMachine_new_round (seq 0 k) rs = Some (wire_upto k rs).
Proof.
  induction k as [|k IH]; intros Hk.
  - simpl. f_equal. unfold wire_upto. apply list_eq. intros i.
    rewrite list_lookup_imap. destruct (rs !! i); reflexivity.
  - rewrite seq_S, rounds_app, IH by lia. simpl.
    unfold EnigmaMachine_new_round. cbv zeta.
    rewrite wrap32_small by lia.
    replace (Z.of_nat k + 1) with (Z.of_nat (S k)) by lia.
    rewrite !at_index_nat, Nat2Z.id.
    destruct (lookup_lt_is_Some_2 rs (S k)) as [r1 H1]; [lia|].
    destruct (lookup_lt_is_Some_2 rs k) as [r H0]; [lia|].
    unfold wire_upto at 1 2. rewrite !list_lookup_imap, H1, H0. simpl.
    destruct (decide (k < k)%nat); [lia|].
    rewrite store_nat by (rewrite length_wire_upto; lia).
    now rewrite (wire_upto_step k rs r H0).
Qed.

Lemma EnigmaMachine_new_value (reflector : list Z) :
  EnigmaMachine_new rs reflector = Some (mkEnigmaMachine (wire rs) reflector).
Proof.
  unfold EnigmaMachine_new.
  rewrite wrap_small by lia.
  replace (Z.of_nat (length rs) - 1) with (Z.of_nat (length rs - 1)) by lia.
  rewrite for_unsigned_rounds by lia.
  rewrite wiring_rounds by lia. reflexivity.
Qed.

Lemma wire_wired :
  (forall r j, rs !! (length rs - 1)%nat = Some r ->
               turnover_callback r <> advance_next_rotor j) ->
  wired (wire rs).
Proof.
  intros Hlast i r Hi. unfold wire in *.
  rewrite length_wire_upto.
  unfold wire_upto in Hi. rewrite list_lookup_imap in Hi.
  destruct (rs !! i) as [r0|] eqn:E; [|discriminate].
  simpl in Hi. injection Hi as <-.
  destruct (decide (i < length rs - 1)%nat) as [Hlt|Hge]; simpl.
  - split; [reflexivity|lia].
  - split; [lia|]. intros Hn j. apply Hlast.
    replace (length rs - 1)%nat with i by lia. exact E.
Qed.

End MachineConstructor.

(** No machine without a rotor: the bound [rotors.size() - 1] wraps and the
    first round reads [rotors[1]]. *)
Lemma EnigmaMachine_new_empty (reflector : list Z) :
  EnigmaMachine_new [] reflector = None.
Proof. unfold EnigmaMachine_new, for_unsigned. simpl length.
  change (wrap (Z.of_nat 0 - 1)) with (2 ^ 64 - 1).
  destruct (Z.to_nat (2 ^ 64 - 1)); reflexivity.
Qed.

(** What the constructor establishes, whenever it returns. *)
Lemma EnigmaMachine_new_wired (rs : list Rotor) (reflector : list Z)
    (m : EnigmaMachine) :
  Z.of_nat (length rs) < 2 ^ 64 ->
  (forall r j, rs !! (length rs - 1)%nat = Some r ->
               turnover_callback r <> advance_next_rotor j) ->
  EnigmaMachine_new rs reflector = Some m ->
  m = mkEnigmaMachine (wire rs) reflector /\ wired (rotors m).
Proof.
  intros Hsize Hlast Hnew.
  destruct rs as [|r0 rs'] eqn:E.
  { rewrite EnigmaMachine_new_empty in Hnew. discriminate. }
  rewrite <- E in *.
  assert (Hn : (0 < length rs)%nat) by (rewrite E; simpl; lia).
  destruct (Z.lt_ge_cases (Z.of_nat (length rs) - 1) (2 ^ 32))
    as [Hsmall|Hlarge].
  - rewrite (EnigmaMachine_new_value rs Hn Hsmall) in Hnew.
    injection Hnew as <-. split; [reflexivity|].
    apply wire_wired; assumption.
  - unfold EnigmaMachine_new, for_unsigned in Hnew.
    rewrite wrap_small in Hnew by lia.
    rewrite for_loop_diverges in Hnew by lia. discriminate.
Qed.

Lemma EnigmaMachine_new_positions (rs : list Rotor) (reflector : list Z)
    (m : EnigmaMachine) :
  EnigmaMachine_new rs reflector = Some m ->
  position <$> rotors m = position <$> rs.
Proof.
  unfold EnigmaMachine_new, for_unsigned.
  match goal with
  | |- context [for_loop ?f ?b ?i ?body rs] =>
      destruct (for_loop f b i body rs) as [rs'|] eqn:E; [|discriminate];
      apply (for_loop_invariant
               (fun l => position <$> l = position <$> rs) body) in E
  end.
  - intros H. injection H as <-. exact E.
  - intros i l l' Hl Hbody. unfold EnigmaMachine_new_round in Hbody.
    cbv zeta in Hbody.
    destruct (at_index l (wrap32 (i + 1))) as [r1|]; [|discriminate].
    destruct (at_index l i) as [r0|] eqn:Hi; [|discriminate].
    unfold store in Hbody.
    destruct ((0 <=? i) && (i <? Z.of_nat (length l))); [|discriminate].
    injection Hbody as <-.
    rewrite list_fmap_insert. simpl. rewrite <- Hl.
    apply list_insert_id. rewrite list_lookup_fmap.
    unfold at_index in Hi. destruct (0 <=? i); [|discriminate].
    now rewrite Hi.
  - reflexivity.
Qed.

(** C10, as amended: the rotor's constructor always leaves the position
    at 0; the machine's constructor keeps the positions of the rotors it
    is given, so a machine made of newly constructed rotors has every
    rotor at position 0. *)
Theorem constructed_positions (Index_max : Z) :
  (forall cipher notches callback uninit r,
     Rotor_new Index_max cipher notches callback uninit = Some r ->
     position r = 0)
  /\ (forall rs reflector m,
        EnigmaMachine_new rs reflector = Some m ->
        position <$> rotors m = position <$> rs)
  /\ (forall rs reflector m,
        Forall (fun r => position r = 0) rs ->
        EnigmaMachine_new rs reflector = Some m ->
        Forall (fun r => position r = 0) (rotors m)).
Proof.
  split; [|split].
  - intros cipher notches callback uninit r. unfold Rotor_new.
    destruct (for_unsigned _ _ _); [|discriminate].
    intros H. injection H as <-. reflexivity.
  - exact EnigmaMachine_new_positions.
  - intros rs reflector m Hrs Hnew.
    apply EnigmaMachine_new_positions in Hnew.
    apply Forall_lookup. intros i r Hi.
    assert (Hp : (position <$> rs) !! i = Some (position r))
      by (rewrite <- Hnew, list_lookup_fmap, Hi; reflexivity).
    rewrite list_lookup_fmap in Hp.
    destruct (rs !! i) as [r'|] eqn:E; [|discriminate].
    injection Hp as <-.
    rewrite Forall_lookup in Hrs. exact (Hrs i r' E).
Qed.

(** ** Advancing the assembly *)

Lemma put_rotor_value (i : nat) (r : Rotor) (w : World) :
  (i < length (rotors (machine w)))%nat ->
  put_rotor i r w = Some (tt, with_rotor i r w).
Proof.
  intros H. unfold put_rotor.
  destruct (decide (i < length (rotors (machine w)))%nat); [reflexivity|lia].
Qed.

Lemma with_rotor_same (i : nat) (r : Rotor) (w : World) :
  rotors (machine w) !! i = Some r -> with_rotor i r w = w.
Proof.
  intros H. unfold with_rotor. rewrite list_insert_id by exact H.
  destruct w as [[rs refl] obs]. reflexivity.
Qed.

Lemma wired_insert (rs : list Rotor) (i : nat) (r r' : Rotor) :
  rs !! i = Some r ->
  turnover_callback r' = turnover_callback r ->
  wired rs -> wired (<[i := r']> rs).
Proof.
  intros Hi Hcb Hw j x Hj. rewrite length_insert.
  destruct (decide (j = i)) as [->|Hne].
  - rewrite list_lookup_insert_eq in Hj by exact (lookup_lt_Some _ _ _ Hi).
    injection Hj as <-. rewrite Hcb. exact (Hw i r Hi).
  - rewrite list_lookup_insert_ne in Hj by congruence. exact (Hw j x Hj).
Qed.

Section Advance.

Variable base : Z.
Hypothesis base_pos : 0 < base.

(** One call of [rotors[i].advance(steps)], unrolled. *)
Lemma advance_rotor_unroll (depth i : nat) (steps : Z) (w : World)
    (r : Rotor) (a : Advanced) :
  rotors (machine w) !! i = Some r ->
  Rotor_advance_steps base r steps = Some a ->
  advance_rotor base (S depth) i steps w
  = match knock a with
    | None => Some (tt, with_rotor i (after a) w)
    | Some knocks =>
        match turnover_callback r with
        | ignoreTurnover => Some (tt, with_rotor i (after a) w)
        | client_callback => observe knocks (with_rotor i (after a) w)
        | advance_next_rotor next =>
            advance_rotor base depth next knocks (with_rotor i (after a) w)
        end
    end.
Proof.
  intros Hi Ha. simpl.
  unfold bind at 1. unfold get_rotor at 1. rewrite Hi. simpl.
  unfold bind at 1. rewrite Ha. simpl.
  unfold bind at 1.
  rewrite put_rotor_value by exact (lookup_lt_Some _ _ _ Hi).
  destruct (knock a); [|reflexivity].
  destruct (turnover_callback r); reflexivity.
Qed.

Lemma wf_world_with_rotor (i : nat) (r : Rotor) (p : Z) (w : World) :
  rotors (machine w) !! i = Some r ->
  0 <= p < base ->
  wf_world base w -> wf_world base (with_rotor i (set_position r p) w).
Proof.
  intros Hi Hp (Hne & Hw & Hall & Hrefl).
  unfold wf_world, with_rotor. simpl.
  split; [|split; [|split]].
  - intros E. apply (f_equal length) in E.
    rewrite length_insert in E. destruct (rotors (machine w));
      [congruence|discriminate].
  - apply (wired_insert _ _ r); auto.
  - apply Forall_insert; [exact Hall|].
    rewrite Forall_lookup in Hall. destruct (Hall i r Hi) as (_ & Hf & Hr).
    split; [simpl; lia|]. split; [exact Hf|exact Hr].
  - exact Hrefl.
Qed.

(** Along the wiring of the constructor every call returns. *)
Lemma advance_rotor_total (depth : nat) :
  forall (i : nat) (steps : Z) (w : World) (r : Rotor),
    wf_world base w ->
    rotors (machine w) !! i = Some r ->
    (length (rotors (machine w)) - i <= depth)%nat ->
    exists w', advance_rotor base depth i steps w = Some (tt, w')
               /\ wf_world base w'
               /\ length (rotors (machine w')) = length (rotors (machine w))
               /\ (forall j, (j < i)%nat ->
                     rotors (machine w') !! j = rotors (machine w) !! j)
               /\ rotors (machine w') !! i
                  = Some (set_position r (wrap (position r + steps) mod base)).
Proof.
  induction depth as [|depth IH]; intros i steps w r Hwf Hr Hd.
  { apply lookup_lt_Some in Hr. lia. }
  pose proof (lookup_lt_Some _ _ _ Hr) as Hi.
  destruct (Rotor_advance_steps_total base base_pos r steps)
    as (a & Ha & Hafter & _ & Hp & _).
  rewrite (advance_rotor_unroll depth i steps w r a Hr Ha).
  rewrite Hafter in *. simpl in Hp.
  set (p := wrap (position r + steps) mod base) in *.
  set (w1 := with_rotor i (set_position r p) w).
  pose proof (wf_world_with_rotor i r p w Hr Hp Hwf) as Hwf1. fold w1 in Hwf1.
  assert (Hlen : length (rotors (machine w1)) = length (rotors (machine w)))
    by (simpl; apply length_insert).
  assert (Hothers : forall j, j <> i ->
            rotors (machine w1) !! j = rotors (machine w) !! j)
    by (intros j Hj; simpl; apply list_lookup_insert_ne; congruence).
  assert (Hself : rotors (machine w1) !! i = Some (set_position r p))
    by (simpl; apply list_lookup_insert_eq; exact Hi).
  assert (Hstop : exists w', Some (tt, w1) = Some (tt, w')
            /\ wf_world base w'
            /\ length (rotors (machine w')) = length (rotors (machine w))
            /\ (forall j, (j < i)%nat ->
                  rotors (machine w') !! j = rotors (machine w) !! j)
            /\ rotors (machine w') !! i = Some (set_position r p)).
  { exists w1. split; [reflexivity|]. split; [exact Hwf1|].
    split; [exact Hlen|]. split; [|exact Hself].
    intros j Hj. apply Hothers. lia. }
  destruct (knock a) as [knocks|]; [|exact Hstop].
  destruct (turnover_callback r) as [| |next] eqn:Hcb; [exact Hstop| |].
  - exists (mkWorld (machine w1) (knocks :: observed w1)).
    split; [reflexivity|]. split; [exact Hwf1|]. split; [exact Hlen|].
    split; [|exact Hself]. intros j Hj. apply Hothers. lia.
  - destruct Hwf as (_ & Hw & _). destruct (Hw i r Hr) as [Hnext Hlast].
    destruct (decide (S i < length (rotors (machine w)))%nat) as [Hlt|Hge].
    + rewrite (Hnext Hlt) in Hcb. injection Hcb as <-.
      destruct (lookup_lt_is_Some_2 (rotors (machine w1)) (S i))
        as [r1 Hr1]; [lia|].
      destruct (IH (S i) knocks w1 r1 Hwf1 Hr1)
        as (w' & Hrun & Hwf' & Hlen' & Hframe & _); [lia|].
      exists w'. split; [exact Hrun|]. split; [exact Hwf'|].
      split; [lia|]. split.
      * intros j Hj. rewrite Hframe by lia. apply Hothers. lia.
      * rewrite Hframe by lia. exact Hself.
    + exfalso. apply (Hlast ltac:(lia) next). exact Hcb.
Qed.

(** A full revolution of rotor [i] hands its number of notches to the
    rotor its callback names. *)
Lemma advance_rotor_revolution (depth i next : nat) (w : World) (r : Rotor) :
  2 * base <= 2 ^ 64 ->
  rotors (machine w) !! i = Some r ->
  0 <= position r < base ->
  turnover_callback r = advance_next_rotor next ->
  advance_rotor base (S depth) i base w
  = if 0 <? bitset.count base (notches r)
    then advance_rotor base depth next (bitset.count base (notches r)) w
    else Some (tt, w).
Proof.
  intros Hb Hi Hp Hcb.
  rewrite (advance_rotor_unroll depth i base w r _ Hi
             (Rotor_advance_steps_revolution base base_pos r Hb Hp)).
  simpl. rewrite (with_rotor_same i r w Hi), Hcb.
  destruct (0 <? bitset.count base (notches r)); reflexivity.
Qed.

End Advance.

(** C2: [advance(steps)] of the machine is the batch advance of rotor 0,
    and a later rotor moves only when the callback of its predecessor is
    invoked; in a machine wired by the constructor, a full revolution
    ([base] steps) of a rotor that has a successor leaves that rotor where
    it was and advances the successor by exactly the number of its notches,
    for the first rotor and for every rotor down the chain. *)
Theorem machine_advance_cascades (base : Z) (w : World) :
  0 < base ->
  2 * base <= 2 ^ 64 ->
  wf_world base w ->
  (forall steps,
     advance base steps w
     = advance_rotor base (length (rotors (machine w))) 0 steps w)
  /\ (forall steps r a,
        rotors (machine w) !! 0%nat = Some r ->
        Rotor_advance_steps base r steps = Some a ->
        knock a = None ->
        advance base steps w = Some (tt, with_rotor 0 (after a) w))
  /\ (forall depth i r,
        rotors (machine w) !! i = Some r ->
        (S i < length (rotors (machine w)))%nat ->
        advance_rotor base (S depth) i base w
        = if 0 <? bitset.count base (notches r)
          then advance_rotor base depth (S i)
                 (bitset.count base (notches r)) w
          else Some (tt, w))
  /\ (forall depth i r r1,
        rotors (machine w) !! i = Some r ->
        rotors (machine w) !! S i = Some r1 ->
        (length (rotors (machine w)) - i <= S depth)%nat ->
        exists w',
          advance_rotor base (S depth) i base w = Some (tt, w')
          /\ (forall j, (j <= i)%nat ->
                rotors (machine w') !! j = rotors (machine w) !! j)
          /\ rotors (machine w') !! S i
             = Some (set_position r1
                       ((position r1 + bitset.count base (notches r))
                        mod base))).
Proof.
  intros Hb1 Hb2 Hwf.
  pose proof Hwf as (_ & Hw & Hall & _).
  assert (Hpos : forall i r, rotors (machine w) !! i = Some r ->
                   0 <= position r < base).
  { intros i r Hi. rewrite Forall_lookup in Hall. apply (Hall i r Hi). }
  assert (Hrev : forall depth i r,
            rotors (machine w) !! i = Some r ->
            (S i < length (rotors (machine w)))%nat ->
            advance_rotor base (S depth) i base w
            = if 0 <? bitset.count base (notches r)
              then advance_rotor base depth (S i)
                     (bitset.count base (notches r)) w
              else Some (tt, w)).
  { intros depth i r Hi Hlt.
    apply (advance_rotor_revolution base Hb1 depth i (S i) w r Hb2 Hi
             (Hpos i r Hi)).
    exact (proj1 (Hw i r Hi) Hlt). }
  split; [|split; [|split]].
  - intros steps. reflexivity.
  - intros steps r a Hr Ha Hk. unfold advance, bind, rotor_count.
    destruct (length (rotors (machine w))) as [|n] eqn:E.
    + apply lookup_lt_Some in Hr. lia.
    + rewrite (advance_rotor_unroll base n 0 steps w r a Hr Ha), Hk.
      reflexivity.
  - exact Hrev.
  - intros depth i r r1 Hi Hi1 Hd.
    pose proof (lookup_lt_Some _ _ _ Hi1) as Hlt.
    pose proof (count_range base (notches r) ltac:(lia)) as Hc.
    pose proof (Hpos _ _ Hi1) as Hp1.
    rewrite (Hrev depth i r Hi Hlt).
    destruct (Z.ltb_spec 0 (bitset.count base (notches r))) as [Hk|Hk].
    + destruct (advance_rotor_total base Hb1 depth (S i)
                  (bitset.count base (notches r)) w r1 Hwf Hi1)
        as (w' & Hrun & _ & _ & Hframe & Hself); [lia|].
      exists w'. split; [exact Hrun|].
      split; [intros j Hj; apply Hframe; lia|].
      rewrite Hself, wrap_small by lia. reflexivity.
    + exists w. split; [reflexivity|]. split; [reflexivity|].
      replace (bitset.count base (notches r)) with 0 by lia.
      rewrite Z.add_0_r, Z.mod_small by lia.
      now rewrite set_position_same.
Qed.

(** C8: [encodeNext(val)] is the machine's [advance] with one step, the
    cascade it triggers included, followed by [encode(val)] on the state
    that leaves; its value is the value of that [encode] and its final
    state the state the [advance] left. *)
Theorem encodeNext_is_advance_then_encode (base : Z) (val : Z) (w : World) :
  encodeNext base val w
  = match advance base 1 w with
    | Some (_, w1) =>
        match encode base val w1 with
        | Some (v, _) => Some (v, w1)
        | None => None
        end
    | None => None
    end.
Proof.
  unfold encodeNext, bind.
  destruct (advance base 1 w) as [[u w1]|]; [|reflexivity].
  rewrite encode_reads. unfold lift.
  destruct (encode_value base (machine w1) val); reflexivity.
Qed.

(** ** The generator *)

Section Draws.

Variable base : Z.
Hypothesis base_pos : 0 < base.
Hypothesis base_fits : 2 * base <= 2 ^ 64.

Lemma advance_total (steps : Z) (w : World) :
  wf_world base w ->
  exists w', advance base steps w = Some (tt, w') /\ wf_world base w'.
Proof.
  intros Hwf. unfold advance, bind, rotor_count.
  assert (Hn : (0 < length (rotors (machine w)))%nat).
  { destruct Hwf as (Hne & _).
    destruct (rotors (machine w)); [congruence|simpl; lia]. }
  destruct (lookup_lt_is_Some_2 _ _ Hn) as [r Hr].
  destruct (advance_rotor_total base base_pos
              (length (rotors (machine w))) 0 steps w r Hwf Hr)
    as (w' & Hrun & Hwf' & _); [lia|].
  exists w'. split; assumption.
Qed.

Lemma encodeNext_total (val : Z) (w : World) :
  wf_world base w -> 0 <= val < base ->
  exists v w', encodeNext base val w = Some (v, w')
               /\ advance base 1 w = Some (tt, w')
               /\ encode base val w' = Some (v, w')
               /\ 0 <= v < base
               /\ wf_world base w'.
Proof.
  intros Hwf Hv.
  destruct (advance_total 1 w Hwf) as (w' & Hadv & Hwf').
  destruct Hwf' as (Hne & Hw & Hall & Hrefl).
  destruct (encode_value_composition base base_pos base_fits
              (machine w') val Hall Hrefl Hv) as (v & Hcode & _ & Hr).
  exists v, w'. unfold encodeNext, bind.
  rewrite Hadv, encode_reads, Hcode.
  do 3 (split; [reflexivity|]). split; [exact Hr|].
  unfold wf_world. auto.
Qed.

Lemma Generator_call_total (g : Generator) (w : World) :
  wf_world base w -> 0 <= seq_val g < base ->
  exists v w', Generator_call base g w = Some ((v, mkGenerator v), w')
               /\ encodeNext base (seq_val g) w = Some (v, w')
               /\ 0 <= v < base
               /\ wf_world base w'.
Proof.
  intros Hwf Hg.
  destruct (encodeNext_total (seq_val g) w Hwf Hg)
    as (v & w' & Hnext & _ & _ & Hv & Hwf').
  exists v, w'. unfold Generator_call, bind. rewrite Hnext.
  do 2 (split; [reflexivity|]). split; [exact Hv|exact Hwf'].
Qed.

Lemma draws_total (n : nat) :
  forall (g : Generator) (w : World),
    wf_world base w -> 0 <= seq_val g < base ->
    exists vs g' w',
      draws base n g w = Some ((vs, g'), w')
      /\ length vs = n
      /\ Forall (fun v => 0 <= v < base) vs.
Proof.
  induction n as [|n IH]; intros g w Hwf Hg.
  - exists [], g, w. repeat split. constructor.
  - destruct (Generator_call_total g w Hwf Hg)
      as (v & w1 & Hcall & _ & Hv & Hwf1).
    destruct (IH (mkGenerator v) w1 Hwf1 Hv)
      as (vs & g' & w' & Hrest & Hlen & Hall).
    exists (v :: vs), g', w'. simpl. unfold bind.
    rewrite Hcall. simpl. rewrite Hrest. simpl.
    split; [reflexivity|]. split; [now rewrite Hlen|].
    constructor; assumption.
Qed.

End Draws.

(** C9: over a machine in a valid state, whose tables and reflector are
    tables over [0, base), and with a seed in [0, base): a draw sets the
    stored value to [machine.encodeNext(value)] and returns it; every
    value drawn lies in [0, base); [min()] is 0 and [max()] is
    [base - 1], both constants that do not run the machine. *)
Theorem generator_draws_in_range (base Index_max : Z) (w : World)
    (g : Generator) (n : nat) :
  0 < base ->
  2 * base <= 2 ^ 64 ->
  base <= Index_max ->
  wf_world base w ->
  0 <= seq_val g < base ->
  (exists v w',
     Generator_call base g w = Some ((v, mkGenerator v), w')
     /\ encodeNext base (seq_val g) w = Some (v, w')
     /\ 0 <= v < base)
  /\ (exists vs g' w',
        draws base n g w = Some ((vs, g'), w')
        /\ length vs = n
        /\ Forall (fun v => 0 <= v < base) vs)
  /\ Generator_min Index_max = 0
  /\ Generator_max base Index_max = base - 1.
Proof.
  intros Hb1 Hb2 Hidx Hwf Hg.
  split; [|split; [|split]].
  - destruct (Generator_call_total base Hb1 Hb2 g w Hwf Hg)
      as (v & w' & Hcall & Hnext & Hv & _).
    exists v, w'. auto.
  - exact (draws_total base Hb1 Hb2 n g w Hwf Hg).
  - unfold Generator_min, to_Index. apply Z.mod_0_l. lia.
  - unfold Generator_max, to_Index.
    rewrite wrap_small by lia. apply Z.mod_small. lia.
Qed.

(** ** Batch advance against single steps *)

(** Both ways of advancing end at the same position as long as
    [position + n] does not leave [std::size_t]. *)
Lemma advance_times_position (base : Z) (n : nat) :
  0 < base < 2 ^ 64 ->
  forall r, 0 <= position r < base ->
    exists r' total,
      advance_times base n r = Some (r', total)
      /\ r' = set_position r ((position r + Z.of_nat n) mod base).
Proof.
  intros [Hb1 Hb2]. induction n as [|n IH]; intros r Hp.
  - exists r, 0. split; [reflexivity|].
    rewrite Z.add_0_r, Z.mod_small by lia.
    symmetry. apply set_position_same.
  - simpl advance_times. rewrite Rotor_advance_value by assumption.
    cbv zeta. cbn [after].
    destruct (IH (set_position r ((position r + 1) mod base)))
      as (r' & total & -> & ->).
    { simpl. apply Z.mod_pos_bound. lia. }
    eexists _, _. split; [reflexivity|].
    cbn [position set_position turnover_callback forward_cipher
         reverse_cipher notches].
    f_equal. rewrite Zplus_mod_idemp_l. f_equal. lia.
Qed.

Lemma advance_steps_position (base : Z) (n : nat) (r : Rotor) :
  0 < base ->
  0 <= position r ->
  position r + Z.of_nat n < 2 ^ 64 ->
  option_map after (Rotor_advance_steps base r (Z.of_nat n))
  = Some (set_position r ((position r + Z.of_nat n) mod base)).
Proof.
  intros Hb Hp Hn.
  destruct (Rotor_advance_steps_total base Hb r (Z.of_nat n))
    as (a & -> & Ha & _).
  cbn [option_map]. rewrite Ha, wrap_small by lia. reflexivity.
Qed.

(** C1: the batch [advance(n)] against [n] calls of [advance()], on the
    rotor III of the demonstration program (one notch, at 22).  From
    position 21 one single step reaches the notch and tells the callback
    1, the batch call with one step reaches the same position and does not
    invoke the callback.  From position 25 one single step wraps to 0,
    where no notch is, and tells the callback nothing; the batch call
    invokes it with 1. *)
Theorem batch_advance_miscounts :
  exists r21 r25,
    Rotor_new 255 cipherIII notchesIII ignoreTurnover uninit26 = Some rotorIII
    /\ advance_times 26 21 rotorIII = Some (r21, 0)
    /\ advance_times 26 1 r21 = Some (set_position r21 22, 1)
    /\ option_map (fun a => (after a, knock a)) (Rotor_advance_steps 26 r21 1)
       = Some (set_position r21 22, None)
    /\ advance_times 26 25 rotorIII = Some (r25, 1)
    /\ advance_times 26 1 r25 = Some (set_position r25 0, 0)
    /\ option_map (fun a => (after a, knock a)) (Rotor_advance_steps 26 r25 1)
       = Some (set_position r25 0, Some 1).
Proof.
  exists (set_position rotorIII 21), (set_position rotorIII 25).
  repeat split; vm_compute; reflexivity.
Qed.

(** ** The demonstration machine *)

Lemma demo_machine_constructed :
  Rotor_new 255 cipherIII notchesIII ignoreTurnover uninit26 = Some rotorIII
  /\ Rotor_new 255 cipherII notchesII ignoreTurnover uninit26 = Some rotorII
  /\ Rotor_new 255 cipherI notchesI ignoreTurnover uninit26 = Some rotorI
  /\ EnigmaMachine_new [rotorIII; rotorII; rotorI] reflectorB
     = Some demo_machine.
Proof. repeat split; vm_compute; reflexivity. Qed.

Lemma table26 (l : list Z) :
  bool_decide (length l = 26%nat
               /\ Forall (fun c => 0 <= c < 26) l /\ NoDup l) = true ->
  is_table 26 l.
Proof. intros H. apply bool_decide_eq_true in H. exact H. Qed.

Lemma demo_wired : wired (rotors demo_machine).
Proof.
  destruct demo_machine_constructed as (_ & _ & _ & Hnew).
  destruct (EnigmaMachine_new_wired [rotorIII; rotorII; rotorI] reflectorB
              demo_machine) as [_ H].
  - simpl. lia.
  - intros r j Hr. simpl in Hr. injection Hr as <-. discriminate.
  - exact Hnew.
  - exact H.
Qed.

Lemma demo_wf : wf_world 26 demo_world.
Proof.
  split; [discriminate|]. split; [exact demo_wired|]. split.
  - repeat (apply List.Forall_cons;
              [split; [simpl; lia|split; apply table26; vm_compute; reflexivity]|]).
    apply List.Forall_nil.
  - apply table26. vm_compute. reflexivity.
Qed.

(** ** Instances *)

Lemma Rotor_advance_single_step_witness :
  0 < 26 < 2 ^ 64
  /\ 0 <= position (set_position rotorIII 21) < 26
  /\ exists a,
       Rotor_advance 26 (set_position rotorIII 21) = Some a
       /\ knock a = Some 1
       /\ returned a = 22.
Proof.
  assert (Hb : 0 < 26 < 2 ^ 64) by lia.
  assert (Hp : 0 <= position (set_position rotorIII 21) < 26)
    by (simpl; lia).
  split; [exact Hb|]. split; [exact Hp|].
  destruct (Rotor_advance_single_step 26 (set_position rotorIII 21) Hb Hp)
    as (a & Ha & Hafter & Hk & _ & Hr).
  exists a. split; [exact Ha|]. split; [|exact Hr].
  apply Hk. rewrite Hafter. reflexivity.
Defined.

Lemma Rotor_position_in_range_witness :
  0 < 26 < 2 ^ 64
  /\ 0 <= position rotorIII < 26
  /\ exists r',
       run_calls 26 [call_advance; call_advance_steps 0;
                     call_advance_steps 100; call_advance_steps (2 ^ 64 - 1)]
                 rotorIII = Some r'
       /\ 0 <= position r' < 26.
Proof.
  assert (Hb : 0 < 26 < 2 ^ 64) by lia.
  assert (Hp : 0 <= position rotorIII < 26) by (simpl; lia).
  split; [exact Hb|]. split; [exact Hp|].
  exact (Rotor_position_in_range 26 _ rotorIII Hb Hp).
Defined.

Lemma reverse_cipher_is_inverse_witness :
  0 < 26
  /\ 26 <= 255
  /\ is_table 26 cipherIII
  /\ length uninit26 = Z.to_nat 26
  /\ exists r,
       Rotor_new 255 cipherIII notchesIII ignoreTurnover uninit26 = Some r
       /\ inverse_tables 26 r.
Proof.
  assert (Hb : 0 < 26) by lia.
  assert (Hi : 26 <= 255) by lia.
  assert (Ht : is_table 26 cipherIII)
    by (apply table26; vm_compute; reflexivity).
  assert (Hu : length uninit26 = Z.to_nat 26) by reflexivity.
  split; [exact Hb|]. split; [exact Hi|]. split; [exact Ht|].
  split; [exact Hu|].
  destruct (reverse_cipher_is_inverse 26 255 cipherIII uninit26 notchesIII
              ignoreTurnover Hb Hi Ht Hu) as (Hreturns & Hinverse).
  destruct (Hreturns ltac:(lia)) as (r & Hnew).
  exists r. split; [exact Hnew|].
  exact (proj1 (proj2 (Hinverse r Hnew))).
Defined.

Lemma encode_is_composition_witness :
  0 < 26
  /\ 2 * 26 <= 2 ^ 64
  /\ Forall (wf_rotor 26) (rotors (machine demo_world))
  /\ is_table 26 (reflector (machine demo_world))
  /\ 0 <= 0 < 26
  /\ exists v,
       encode 26 0 demo_world = Some (v, demo_world)
       /\ composition 26 (machine demo_world) 0 = Some v.
Proof.
  assert (Hb1 : 0 < 26) by lia.
  assert (Hb2 : 2 * 26 <= 2 ^ 64) by lia.
  destruct demo_wf as (_ & _ & Hall & Hrefl).
  assert (Hv : 0 <= 0 < 26) by lia.
  split; [exact Hb1|]. split; [exact Hb2|]. split; [exact Hall|].
  split; [exact Hrefl|]. split; [exact Hv|].
  destruct (encode_is_composition 26 demo_world 0 Hb1 Hb2 Hall Hrefl Hv)
    as (v & Hcode & Hwords & _).
  exists v. split; [exact Hcode|exact Hwords].
Defined.

Lemma encode_does_not_mutate_witness :
  encode 26 0 demo_world = Some (20, demo_world)
  /\ encode_twice 26 0 demo_world = Some ((20, 20), demo_world).
Proof.
  assert (H : encode 26 0 demo_world = Some (20, demo_world))
    by (vm_compute; reflexivity).
  split; [exact H|].
  exact (proj2 (proj1 (encode_does_not_mutate 26 demo_world 0)
                  20 demo_world H)).
Defined.

Lemma machine_advance_cascades_witness :
  0 < 26
  /\ 2 * 26 <= 2 ^ 64
  /\ wf_world 26 demo_world
  /\ advance 26 26 demo_world = advance_rotor 26 2 1 1 demo_world
  /\ exists w',
       advance 26 26 demo_world = Some (tt, w')
       /\ position <$> rotors (machine w') = [0; 1; 0].
Proof.
  assert (Hb1 : 0 < 26) by lia.
  assert (Hb2 : 2 * 26 <= 2 ^ 64) by lia.
  split; [exact Hb1|]. split; [exact Hb2|]. split; [exact demo_wf|].
  destruct (machine_advance_cascades 26 demo_world Hb1 Hb2 demo_wf)
    as (_ & _ & H & _).
  split.
  - exact (H 2%nat 0%nat (setTurnoverCallback rotorIII (advance_next_rotor 1))
             eq_refl ltac:(simpl; lia)).
  - eexists. split; vm_compute; reflexivity.
Defined.

Lemma generator_draws_in_range_witness :
  0 < 26
  /\ 2 * 26 <= 2 ^ 64
  /\ 26 <= 255
  /\ wf_world 26 demo_world
  /\ 0 <= seq_val (Generator_new 3) < 26
  /\ (exists vs g' w',
        draws 26 5 (Generator_new 3) demo_world = Some ((vs, g'), w')
        /\ length vs = 5%nat
        /\ Forall (fun v => 0 <= v < 26) vs)
  /\ Generator_min 255 = 0
  /\ Generator_max 26 255 = 25.
Proof.
  assert (Hb1 : 0 < 26) by lia.
  assert (Hb2 : 2 * 26 <= 2 ^ 64) by lia.
  assert (Hi : 26 <= 255) by lia.
  assert (Hg : 0 <= seq_val (Generator_new 3) < 26) by (simpl; lia).
  split; [exact Hb1|]. split; [exact Hb2|]. split; [exact Hi|].
  split; [exact demo_wf|]. split; [exact Hg|].
  destruct (generator_draws_in_range 26 255 demo_world (Generator_new 3) 5
              Hb1 Hb2 Hi demo_wf Hg) as (_ & Hdraws & Hmin & Hmax).
  split; [exact Hdraws|]. split; [exact Hmin|exact Hmax].
Defined.

Lemma constructed_positions_witness :
  position rotorIII = 0
  /\ Forall (fun r => position r = 0) (rotors demo_machine).
Proof.
  destruct demo_machine_constructed as (H3 & _ & _ & Hm).
  destruct (constructed_positions 255) as (Hrotor & _ & Hmachine).
  split.
  - exact (Hrotor _ _ _ _ _ H3).
  - refine (Hmachine _ _ _ _ Hm). repeat constructor.
Defined.

(** C10 as first stated fails: a rotor that was advanced before the
    machine is assembled keeps its position in the new machine. *)
Lemma machine_of_advanced_rotor :
  exists r m,
    Rotor_new 255 cipherIII notchesIII ignoreTurnover uninit26 = Some rotorIII
    /\ Rotor_new 255 cipherII notchesII ignoreTurnover uninit26 = Some rotorII
    /\ run_calls 26 [call_advance] rotorIII = Some r
    /\ EnigmaMachine_new [r; rotorII] reflectorB = Some m
    /\ position <$> rotors m = [1; 0]
    /\ ~ Forall (fun r => position r = 0) (rotors m).
Proof.
  exists (set_position rotorIII 1).
  eexists.
  split; [vm_compute; reflexivity|].
  split; [vm_compute; reflexivity|].
  split; [vm_compute; reflexivity|].
  split; [vm_compute; reflexivity|].
  split; [reflexivity|].
  intros H. apply Forall_cons in H as [H _]. simpl in H. discriminate.
Qed.

(** * Further properties of the code *)

(** ** Counting bits *)

Lemma count_between_app (b : Z) (n m : nat) :
  forall lo,
    count_between b lo (n + m)
    = count_between b lo n + count_between b (lo + Z.of_nat n) m.
Proof.
  induction n as [|n IH]; intros lo.
  - simpl. now rewrite Z.add_0_r.
  - cbn [Nat.add count_between]. rewrite IH.
    replace (lo + 1 + Z.of_nat n) with (lo + Z.of_nat (S n)) by lia. lia.
Qed.

Lemma count_between_ext (x y : Z) (n : nat) :
  forall lo,
    (forall i, lo <= i < lo + Z.of_nat n -> Z.testbit x i = Z.testbit y i) ->
    count_between x lo n = count_between y lo n.
Proof.
  induction n as [|n IH]; intros lo H; [reflexivity|].
  cbn [count_between]. rewrite (H lo) by lia. f_equal.
  apply IH. intros i Hi. apply H. lia.
Qed.

Lemma count_between_none (x : Z) (n : nat) :
  forall lo,
    (forall i, lo <= i < lo + Z.of_nat n -> Z.testbit x i = false) ->
    count_between x lo n = 0.
Proof.
  induction n as [|n IH]; intros lo H; [reflexivity|].
  cbn [count_between]. rewrite (H lo) by lia.
  rewrite IH; [reflexivity|]. intros i Hi. apply H. lia.
Qed.

Lemma count_below_between (b : Z) (n : nat) :
  bitset.count_below n b = count_between b 0 n.
Proof.
  induction n as [|n IH]; [reflexivity|].
  cbn [bitset.count_below]. rewrite IH.
  replace (S n) with (n + 1)%nat by lia.
  rewrite count_between_app. cbn [count_between].
  rewrite Z.add_0_l, Z.add_0_r. reflexivity.
Qed.

Lemma count_between_range (b : Z) (n : nat) :
  forall lo, 0 <= count_between b lo n <= Z.of_nat n.
Proof.
  induction n as [|n IH]; intros lo; cbn [count_between]; [lia|].
  specialize (IH (lo + 1)). destruct (Z.testbit b lo); simpl; lia.
Qed.

(** The bits an interval mask leaves of a bit set. *)
Lemma count_land_interval (N : nat) (b mask lo hi : Z) :
  0 <= lo <= hi -> hi <= Z.of_nat N ->
  (forall i, 0 <= i < Z.of_nat N ->
     Z.testbit mask i = (lo <=? i) && (i <? hi)) ->
  bitset.count_below N (Z.land b mask)
  = count_between b lo (Z.to_nat (hi - lo)).
Proof.
  intros Hlo Hhi Hmask.
  rewrite count_below_between.
  replace N with (Z.to_nat lo + (Z.to_nat (hi - lo) + (N - Z.to_nat hi)))%nat
    by lia.
  rewrite !count_between_app.
  rewrite (count_between_none _ (Z.to_nat lo)).
  2:{ intros i Hi. rewrite Z.land_spec, Hmask by lia.
      destruct (Z.leb_spec lo i); [lia|]. apply andb_false_r. }
  rewrite (count_between_none _ (N - Z.to_nat hi)).
  2:{ intros i Hi. rewrite Z.land_spec, Hmask by lia.
      destruct (Z.ltb_spec i hi); [lia|]. rewrite andb_false_r.
      apply andb_false_r. }
  rewrite Z.add_0_l, Z.add_0_r, Z2Nat.id by lia.
  apply count_between_ext. intros i Hi.
  rewrite Z.land_spec, Hmask by lia.
  destruct (Z.leb_spec lo i); [|lia].
  destruct (Z.ltb_spec i hi); [|lia]. apply andb_true_r.
Qed.

(** The bits the complement of an interval mask leaves. *)
Lemma count_land_outside (N : nat) (b mask lo hi : Z) :
  0 <= lo <= hi -> hi <= Z.of_nat N ->
  (forall i, 0 <= i < Z.of_nat N ->
     Z.testbit mask i = negb ((lo <=? i) && (i <? hi))) ->
  bitset.count_below N (Z.land b mask)
  = count_between b 0 (Z.to_nat lo)
    + count_between b hi (Z.to_nat (Z.of_nat N - hi)).
Proof.
  intros Hlo Hhi Hmask.
  rewrite count_below_between.
  replace N with (Z.to_nat lo + (Z.to_nat (hi - lo) + (N - Z.to_nat hi)))%nat
    at 1 by lia.
  rewrite !count_between_app.
  rewrite (count_between_none _ (Z.to_nat (hi - lo))).
  2:{ intros i Hi. rewrite Z.land_spec, Hmask by lia.
      destruct (Z.leb_spec lo i); [|lia].
      destruct (Z.ltb_spec i hi); [|lia]. apply andb_false_r. }
  rewrite Z.add_0_l, !Z2Nat.id by lia.
  replace (0 + lo + (hi - lo)) with hi by lia.
  replace (Z.to_nat (Z.of_nat N - hi)) with (N - Z.to_nat hi)%nat by lia.
  f_equal.
  - apply count_between_ext. intros i Hi.
    rewrite Z.land_spec, Hmask by lia.
    destruct (Z.leb_spec lo i); [lia|]. apply andb_true_r.
  - apply count_between_ext. intros i Hi.
    rewrite Z.land_spec, Hmask by lia.
    destruct (Z.ltb_spec i hi); [lia|]. rewrite andb_false_r.
    apply andb_true_r.
Qed.

(** The mask of [advance(steps)] before the complement is taken. *)
Lemma advance_mask_bits (base lead trail i : Z) :
  0 <= lead <= trail -> trail < base -> 0 <= i < base ->
  Z.testbit
    (bitset.shr
       (bitset.shl base (bitset.flip base bitset.empty)
                   (lead + (base - trail)))
       lead) i
  = (base - trail <=? i) && (i <? base - lead).
Proof.
  intros Hl Ht Hi.
  unfold bitset.shr, bitset.shl, bitset.flip, bitset.empty.
  rewrite Z.lxor_0_l, Z.shiftr_spec, Z.land_spec by lia.
  rewrite Z.shiftl_spec by lia.
  rewrite !Z.testbit_ones by lia.
  repeat split_comparison; simpl; try reflexivity; lia.
Qed.

Lemma flip_bits (base m i : Z) :
  0 <= i < base -> Z.testbit (bitset.flip base m) i = negb (Z.testbit m i).
Proof.
  intros Hi. unfold bitset.flip.
  rewrite Z.lxor_spec, Z.testbit_ones by lia.
  do 2 (split_comparison; [|lia]). simpl.
  destruct (Z.testbit m i); reflexivity.
Qed.

(** ** The two ways of advancing a rotor *)

Lemma set_position_twice (r : Rotor) (p q : Z) :
  set_position (set_position r p) q = set_position r q.
Proof. reflexivity. Qed.

(** The batch call in closed form, as long as nothing leaves
    [std::size_t]. *)
Lemma Rotor_advance_steps_value (base : Z) (r : Rotor) (steps : Z) :
  0 < base ->
  0 <= position r < base ->
  0 <= steps ->
  position r + steps + base < 2 ^ 64 ->
  Rotor_advance_steps base r steps
  = let total := position r + steps in
    let knocks :=
      (total / base) * bitset.count base (notches r)
      + partial_lap base (notches r) (position r) (total mod base) in
    Some (mkAdvanced (set_position r (total mod base))
                     (if 0 <? knocks then Some knocks else None)
                     (total mod base)).
Proof.
  intros Hb Hp Hs Hfit. cbv zeta. unfold Rotor_advance_steps.
  rewrite (wrap_small (position r + steps)) by lia.
  set (total := position r + steps).
  set (q := total / base). set (next := total mod base).
  assert (Hn : 0 <= next < base) by (apply Z.mod_pos_bound; lia).
  assert (Hq : 0 <= q) by (apply Z.div_pos; lia).
  assert (Hqb : q * base <= total)
    by (rewrite Z.mul_comm; apply Z.mul_div_le; lia).
  pose proof (count_range base (notches r) ltac:(lia)) as Hc.
  assert (Hqc : 0 <= q * bitset.count base (notches r) <= total) by nia.
  rewrite (wrap_small (q * _)) by lia.
  assert (Hpl : 0 <= partial_lap base (notches r) (position r) next <= base).
  { unfold partial_lap. destruct (Z.ltb_spec next (position r)).
    - pose proof (count_between_range (notches r)
                    (Z.to_nat (base - position r)) 0).
      pose proof (count_between_range (notches r) (Z.to_nat next)
                    (base - next)). lia.
    - pose proof (count_between_range (notches r)
                    (Z.to_nat (next - position r)) (base - next)). lia. }
  unfold util.make_sorted_array, partial_lap in *.
  destruct (Z.ltb_spec next (position r)) as [Hw|Hw]; cbv beta iota zeta.
  - rewrite (wrap_small (base - position r)) by lia.
    rewrite (wrap_small (next + _)) by lia.
    match goal with
    | |- context [bitset.count base (bitset.and ?a ?m)] =>
        assert (Hcount : bitset.count base (bitset.and a m)
                         = count_between a 0 (Z.to_nat (base - position r))
                           + count_between a (base - next) (Z.to_nat next))
    end.
    { unfold bitset.count, bitset.and.
      rewrite (count_land_outside (Z.to_nat base) (notches r) _
                 (base - position r) (base - next)); [|lia|lia|].
      - rewrite Z2Nat.id by lia. do 3 f_equal. lia.
      - intros i Hi. rewrite flip_bits by lia.
        rewrite advance_mask_bits by lia. reflexivity. }
    rewrite Hcount, wrap_small by lia.
    destruct (Z.ltb_spec next base); [reflexivity|lia].
  - rewrite (wrap_small (base - next)) by lia.
    rewrite (wrap_small (position r + _)) by lia.
    match goal with
    | |- context [bitset.count base (bitset.and ?a ?m)] =>
        assert (Hcount : bitset.count base (bitset.and a m)
                         = count_between a (base - next)
                             (Z.to_nat (next - position r)))
    end.
    { unfold bitset.count, bitset.and.
      rewrite (count_land_interval (Z.to_nat base) (notches r) _
                 (base - next) (base - position r)); [|lia|lia|].
      - do 2 f_equal. lia.
      - intros i Hi. apply advance_mask_bits; lia. }
    rewrite Hcount, wrap_small by lia.
    destruct (Z.ltb_spec next base); [reflexivity|lia].
Qed.

Lemma advance_times_app (base : Z) (n m : nat) :
  forall r,
    advance_times base (n + m) r
    = match advance_times base n r with
      | Some (r1, t1) =>
          match advance_times base m r1 with
          | Some (r2, t2) => Some (r2, t1 + t2)
          | None => None
          end
      | None => None
      end.
Proof.
  induction n as [|n IH]; intros r.
  - simpl. destruct (advance_times base m r) as [[r2 t2]|]; reflexivity.
  - cbn [Nat.add advance_times].
    destruct (Rotor_advance base r) as [a|]; [|reflexivity].
    rewrite IH.
    destruct (advance_times base n (after a)) as [[r1 t1]|]; [|reflexivity].
    destruct (advance_times base m r1) as [[r2 t2]|]; [|reflexivity].
    f_equal. f_equal. lia.
Qed.

(** Single steps in closed form. *)
Lemma advance_times_value (base : Z) (n : nat) :
  0 < base < 2 ^ 64 ->
  forall r, 0 <= position r < base ->
    advance_times base n r
    = Some (set_position r ((position r + Z.of_nat n) mod base),
            notches_met base (notches r) (position r) n).
Proof.
  intros Hb. induction n as [|n IH]; intros r Hp.
  - simpl. rewrite Z.add_0_r, Z.mod_small by lia.
    now rewrite set_position_same.
  - replace (S n) with (n + 1)%nat at 1 by lia.
    rewrite advance_times_app, IH by exact Hp.
    cbn [advance_times].
    rewrite Rotor_advance_value; [|lia|lia|].
    2:{ simpl. apply Z.mod_pos_bound. lia. }
    cbv zeta. cbn [after knocks_of knock position set_position notches].
    rewrite Zplus_mod_idemp_l.
    replace (position r + Z.of_nat n + 1) with (position r + Z.of_nat (S n))
      by lia.
    cbn [notches_met]. f_equal. f_equal.
    unfold knocks_of. cbn [knock].
    destruct (Z.testbit _ _); simpl; lia.
Qed.

(** A walk that does not pass [base - 1] meets the notches of the arc. *)
Lemma notches_met_arc (base b p : Z) (n : nat) :
  0 <= p -> p + Z.of_nat n < base ->
  notches_met base b p n = count_between b (p + 1) n.
Proof.
  intros Hp. induction n as [|n IH]; intros Hn; [reflexivity|].
  cbn [notches_met]. rewrite IH by lia.
  replace (S n) with (n + 1)%nat at 2 by lia.
  rewrite count_between_app. cbn [count_between].
  rewrite Z.mod_small by lia.
  replace (p + 1 + Z.of_nat n) with (p + Z.of_nat (S n)) by lia. lia.
Qed.

Lemma notches_met_app (base b p : Z) (n m : nat) :
  0 < base ->
  notches_met base b p (n + m)
  = notches_met base b p n
    + notches_met base b ((p + Z.of_nat n) mod base) m.
Proof.
  intros Hb. induction m as [|m IH].
  - rewrite Nat.add_0_r. simpl. lia.
  - replace (n + S m)%nat with (S (n + m)) by lia.
    cbn [notches_met]. rewrite IH, Zplus_mod_idemp_l.
    replace (p + Z.of_nat n + Z.of_nat (S m)) with (p + Z.of_nat (S (n + m)))
      by lia.
    lia.
Qed.

(** One lap meets every notch once, wherever it starts. *)
Lemma notches_met_lap (base b p : Z) :
  0 < base -> 0 <= p < base ->
  notches_met base b p (Z.to_nat base) = bitset.count base b.
Proof.
  intros Hb Hp.
  replace (Z.to_nat base)
    with (Z.to_nat (base - 1 - p) + (1 + Z.to_nat p))%nat at 1 by lia.
  rewrite !notches_met_app by lia.
  rewrite (notches_met_arc base b p) by lia.
  rewrite Z2Nat.id by lia.
  replace (p + (base - 1 - p)) with (base - 1) by lia.
  rewrite (Z.mod_small (base - 1)) by lia.
  cbn [notches_met]. change (Z.of_nat 1) with 1.
  rewrite Z.add_0_l.
  replace (base - 1 + 1) with base by lia.
  rewrite Z_mod_same_full.
  rewrite (notches_met_arc base b 0) by lia.
  unfold bitset.count. rewrite count_below_between.
  replace (Z.to_nat base)
    with (1 + Z.to_nat p + Z.to_nat (base - 1 - p))%nat by lia.
  rewrite !count_between_app. cbn [count_between].
  change (Z.of_nat 1) with 1.
  replace (0 + (1 + Z.of_nat (Z.to_nat p)))%Z with (p + 1) by lia.
  replace (0 + Z.of_nat (1 + Z.to_nat p)) with (p + 1) by lia.
  replace (0 + 1) with 1 by lia. lia.
Qed.


(** X1: the batch [advance(steps)] in closed form, when [position + steps
    + base] fits [std::size_t]: the rotor ends at [(position + steps) mod
    base]; the count is [(position + steps) / base] times the number of
    notches, plus the notch bits from [base - next] to [base - position -
    1] when [position <= next], or those outside [base - position] ..
    [base - next - 1] when [next < position]; the callback is invoked once
    with this count when it is positive and not at all when it is 0. *)
Theorem batch_advance_closed_form (base : Z) (r : Rotor) (steps : Z) :
  0 < base ->
  0 <= position r < base ->
  0 <= steps ->
  position r + steps + base < 2 ^ 64 ->
  exists a,
    Rotor_advance_steps base r steps = Some a
    /\ after a = set_position r ((position r + steps) mod base)
    /\ returned a = (position r + steps) mod base
    /\ knocks_of a
       = (position r + steps) / base * bitset.count base (notches r)
         + partial_lap base (notches r) (position r)
             ((position r + steps) mod base)
    /\ (knock a = None <-> knocks_of a = 0).
Proof.
  intros Hb Hp Hs Hfit.
  rewrite (Rotor_advance_steps_value base r steps Hb Hp Hs Hfit).
  cbv zeta. eexists. split; [reflexivity|].
  unfold knocks_of. cbn [after returned knock].
  do 2 (split; [reflexivity|]).
  destruct (Z.ltb_spec 0
              ((position r + steps) / base * bitset.count base (notches r)
               + partial_lap base (notches r) (position r)
                   ((position r + steps) mod base))) as [Hk|Hk].
  - split; [reflexivity|]. split; [discriminate|lia].
  - assert (0 <= (position r + steps) / base * bitset.count base (notches r)).
    { apply Z.mul_nonneg_nonneg; [apply Z.div_pos; lia|].
      apply count_range. lia. }
    assert (0 <= partial_lap base (notches r) (position r)
                    ((position r + steps) mod base)).
    { unfold partial_lap. destruct (_ <? _).
      - pose proof (count_between_range (notches r)
                      (Z.to_nat (base - position r)) 0).
        pose proof (count_between_range (notches r)
                      (Z.to_nat ((position r + steps) mod base))
                      (base - (position r + steps) mod base)). lia.
      - pose proof (count_between_range (notches r)
                      (Z.to_nat ((position r + steps) mod base - position r))
                      (base - (position r + steps) mod base)). lia. }
    split; [lia|]. split; [intros _; lia|reflexivity].
Qed.

(** X2: [n] calls of [advance()] in sequence end at [(position + n) mod
    base] and tell the callback, in total, the number of notches at the
    positions [(position + k) mod base], [k = 1..n]; a walk that stays
    below [base] meets the notch bits [position + 1 .. position + n], and
    a whole lap meets every notch once, wherever it starts. *)
Theorem single_steps_closed_form (base : Z) (n : nat) (r : Rotor) :
  0 < base < 2 ^ 64 ->
  0 <= position r < base ->
  advance_times base n r
  = Some (set_position r ((position r + Z.of_nat n) mod base),
          notches_met base (notches r) (position r) n)
  /\ (position r + Z.of_nat n < base ->
      notches_met base (notches r) (position r) n
      = count_between (notches r) (position r + 1) n)
  /\ notches_met base (notches r) (position r) (Z.to_nat base)
     = bitset.count base (notches r).
Proof.
  intros Hb Hp. split; [|split].
  - apply advance_times_value; assumption.
  - intros Hn. apply notches_met_arc; lia.
  - apply notches_met_lap; lia.
Qed.

(** X3: the batch [advance(n)] and [n] calls of [advance()] leave the
    rotor in the same state, position included, as long as [position + n]
    stays in [std::size_t]. *)
Theorem batch_and_single_steps_same_rotor (base : Z) (n : nat) (r : Rotor) :
  0 < base < 2 ^ 64 ->
  0 <= position r < base ->
  position r + Z.of_nat n < 2 ^ 64 ->
  exists a r' total,
    Rotor_advance_steps base r (Z.of_nat n) = Some a
    /\ advance_times base n r = Some (r', total)
    /\ after a = r'
    /\ position r' = (position r + Z.of_nat n) mod base.
Proof.
  intros Hb Hp Hfit.
  destruct (Rotor_advance_steps_total base (proj1 Hb) r (Z.of_nat n))
    as (a & Ha & Hafter & _).
  rewrite wrap_small in Hafter by lia.
  exists a. eexists _, _. split; [exact Ha|].
  split; [apply advance_times_value; lia|].
  split; [exact Hafter|reflexivity].
Qed.


(** X5: a rotor without notches never invokes its callback, whichever way
    and however far it is advanced. *)
Theorem no_notch_no_turnover (base : Z) (r : Rotor) :
  notches r = 0 ->
  (forall a, Rotor_advance base r = Some a -> knock a = None)
  /\ (forall steps a,
        Rotor_advance_steps base r steps = Some a -> knock a = None).
Proof.
  intros Hn. split.
  - intros a. unfold Rotor_advance, bitset.test. rewrite Hn.
    destruct (position r <? base); [|discriminate].
    destruct (_ && _); [|discriminate].
    rewrite Z.bits_0. intros H. injection H as <-. reflexivity.
  - intros steps a. unfold Rotor_advance_steps. rewrite Hn.
    destruct (util.make_sorted_array _ _) as [lead trail].
    unfold bitset.and. rewrite Z.land_0_l.
    unfold bitset.count. rewrite count_below_0, Z.mul_0_r.
    change (wrap (wrap 0 + 0)) with 0.
    destruct (_ <? base); [|discriminate].
    intros H. injection H as <-. reflexivity.
Qed.

(** ** The constructors, further *)

Lemma store_length {A} (l l' : list A) (i : Z) (v : A) :
  store l i v = Some l' -> length l' = length l.
Proof.
  unfold store. destruct (_ && _); [|discriminate].
  intros H. injection H as <-. apply length_insert.
Qed.

Lemma store_out_of_range {A} (l : list A) (i : Z) (v : A) :
  ~ (0 <= i < Z.of_nat (length l)) -> store l i v = None.
Proof.
  intros H. unfold store.
  destruct (Z.leb_spec 0 i); [|reflexivity].
  destruct (Z.ltb_spec i (Z.of_nat (length l))); [lia|reflexivity].
Qed.

(** A loop one of whose rounds cannot succeed does not succeed. *)
Lemma rounds_fail {St} (body : Z -> St -> option St) (P : St -> Prop)
    (i : nat) :
  (forall j s s', P s -> body j s = Some s' -> P s') ->
  (forall s, P s -> body (Z.of_nat i) s = None) ->
  forall l s, i ∈ l -> P s -> rounds body l s = None.
Proof.
  intros Hkeep Hfail l. induction l as [|j l IH]; intros s Hi Hs.
  - inversion Hi.
  - simpl. destruct (decide (j = i)) as [->|Hne].
    + now rewrite Hfail.
    + destruct (body (Z.of_nat j) s) as [s'|] eqn:E; [|reflexivity].
      apply IH.
      * apply elem_of_cons in Hi as [Hi|Hi]; [congruence|exact Hi].
      * exact (Hkeep _ _ _ Hs E).
Qed.

(** X6: the constructor does not check the table: with an entry that is
    not an index of [reverse_cipher] it writes outside the array, and no
    rotor results, whatever the other entries are. *)
Theorem Rotor_new_entry_out_of_range (Index_max : Z) (cipher uninit : list Z)
    (notches : Z) (callback : TurnoverFunc) (i : nat) (c : Z) :
  cipher !! i = Some c ->
  ~ (0 <= c < Z.of_nat (length uninit)) ->
  Rotor_new Index_max cipher notches callback uninit = None.
Proof.
  intros Hi Hc. unfold Rotor_new.
  destruct (Z.lt_ge_cases (Z.of_nat (length cipher)) (2 ^ 32))
    as [Hsmall|Hlarge].
  - rewrite for_unsigned_rounds by exact Hsmall.
    rewrite (rounds_fail (Rotor_new_round Index_max cipher)
               (fun s => length s = length uninit) i); try reflexivity.
    + intros j s s' Hs. unfold Rotor_new_round.
      destruct (at_index cipher j); [|discriminate].
      intros H. apply store_length in H. congruence.
    + intros s Hs. unfold Rotor_new_round.
      rewrite at_index_nat, Hi. apply store_out_of_range. now rewrite Hs.
    + apply elem_of_seq. apply lookup_lt_Some in Hi. lia.
  - unfold for_unsigned. rewrite for_loop_diverges by lia. reflexivity.
Qed.

Lemma inverse_tables_onto (base : Z) (r : Rotor) (j : Z) :
  is_table base (forward_cipher r) ->
  inverse_tables base r ->
  0 <= j < base ->
  exists i, 0 <= i < base
            /\ at_index (reverse_cipher r) j = Some i
            /\ at_index (forward_cipher r) i = Some j.
Proof.
  intros Ht Hinv Hj.
  destruct (is_table_onto base _ j Ht Hj) as [i Hi].
  assert (Hib : 0 <= Z.of_nat i < base).
  { apply lookup_lt_Some in Hi. destruct Ht as (Hl & _). lia. }
  destruct (Hinv (Z.of_nat i) Hib) as (c & Hf & Hr).
  rewrite at_index_nat, Hi in Hf. injection Hf as <-.
  exists (Z.of_nat i). split; [exact Hib|]. split; [exact Hr|].
  now rewrite at_index_nat.
Qed.


(** X8: the machine's constructor needs a rotor: with none it reads
    [rotors[1]] of an empty array.  With one rotor or more (up to [2^32])
    it returns; it keeps the reflector and, of every rotor, the tables,
    the notches and the position; it replaces the callback of every rotor
    but the last, a client's callback included, by the lambda that
    advances the next rotor, and leaves the callback of the last rotor as
    it was. *)
Theorem EnigmaMachine_new_wires (rs : list Rotor) (reflector0 : list Z) :
  (rs = [] -> EnigmaMachine_new rs reflector0 = None)
  /\ ((0 < length rs)%nat ->
      Z.of_nat (length rs) - 1 < 2 ^ 32 ->
      exists m,
        EnigmaMachine_new rs reflector0 = Some m
        /\ reflector m = reflector0
        /\ length (rotors m) = length rs
        /\ forall i r,
             rs !! i = Some r ->
             rotors m !! i
             = Some (if decide (S i < length rs)%nat
                     then setTurnoverCallback r (advance_next_rotor (S i))
                     else r)).
Proof.
  split.
  - intros ->. apply EnigmaMachine_new_empty.
  - intros Hn Hsmall.
    rewrite (EnigmaMachine_new_value rs Hn Hsmall).
    eexists. split; [reflexivity|]. simpl.
    split; [reflexivity|]. split; [apply length_wire_upto|].
    intros i r Hi. unfold wire, wire_upto.
    rewrite list_lookup_imap, Hi. simpl.
    destruct (decide (i < length rs - 1)%nat), (decide (S i < length rs)%nat);
      try reflexivity; lia.
Qed.

(** ** Encipherment, further *)

Lemma pass_app (f : Rotor -> Z -> option Z) (l1 l2 : list Rotor) :
  forall v,
    pass f (l1 ++ l2) v
    = match pass f l1 v with
      | Some x => pass f l2 x
      | None => None
      end.
Proof.
  induction l1 as [|r l1 IH]; intros v; simpl; [reflexivity|].
  destruct (f r v); [apply IH|reflexivity].
Qed.

Lemma table_lookup_inj (base : Z) (l : list Z) (i j c : Z) :
  is_table base l ->
  at_index l i = Some c -> at_index l j = Some c -> i = j.
Proof.
  intros (_ & _ & Hnd). unfold at_index.
  destruct (Z.leb_spec 0 i); [|discriminate].
  destruct (Z.leb_spec 0 j); [|discriminate].
  intros Hi Hj. pose proof (NoDup_lookup _ _ _ _ Hnd Hi Hj). lia.
Qed.

Lemma offset_inj (base p v1 v2 : Z) :
  0 <= p < base -> 0 <= v1 < base -> 0 <= v2 < base ->
  (p + v1) mod base = (p + v2) mod base -> v1 = v2.
Proof.
  intros Hp H1 H2 H.
  assert (Hlap : forall x, 0 <= x < 2 * base ->
            x mod base = if x <? base then x else x - base).
  { intros x Hx. destruct (Z.ltb_spec x base).
    - apply Z.mod_small. lia.
    - symmetry. apply (Z.mod_unique _ _ 1); lia. }
  rewrite !Hlap in H by lia.
  destruct (Z.ltb_spec (p + v1) base), (Z.ltb_spec (p + v2) base); lia.
Qed.

Section Injective.

Variable base : Z.
Hypothesis base_pos : 0 < base.
Hypothesis base_fits : 2 * base <= 2 ^ 64.

Lemma doForwardCipher_inj (r : Rotor) (v1 v2 c : Z) :
  wf_rotor base r -> 0 <= v1 < base -> 0 <= v2 < base ->
  doForwardCipher base r v1 = Some c -> doForwardCipher base r v2 = Some c ->
  v1 = v2.
Proof.
  intros (Hp & Hf & _) H1 H2. unfold doForwardCipher.
  do 2 (split_comparison; [|lia]).
  rewrite !wrap_small by lia. intros E1 E2.
  apply (offset_inj base (position r)); try assumption.
  exact (table_lookup_inj base _ _ _ c Hf E1 E2).
Qed.

Lemma doReverseCipher_inj (r : Rotor) (v1 v2 c : Z) :
  wf_rotor base r -> 0 <= v1 < base -> 0 <= v2 < base ->
  doReverseCipher base r v1 = Some c -> doReverseCipher base r v2 = Some c ->
  v1 = v2.
Proof.
  intros (Hp & _ & Hf) H1 H2. unfold doReverseCipher.
  do 2 (split_comparison; [|lia]).
  rewrite !wrap_small by lia. intros E1 E2.
  apply (offset_inj base (position r)); try assumption.
  exact (table_lookup_inj base _ _ _ c Hf E1 E2).
Qed.

Lemma pass_inj (f : Rotor -> Z -> option Z) :
  (forall r v, wf_rotor base r -> 0 <= v < base ->
     exists c, f r v = Some c /\ 0 <= c < base) ->
  (forall r v1 v2 c, wf_rotor base r -> 0 <= v1 < base -> 0 <= v2 < base ->
     f r v1 = Some c -> f r v2 = Some c -> v1 = v2) ->
  forall rs v1 v2 c,
    Forall (wf_rotor base) rs -> 0 <= v1 < base -> 0 <= v2 < base ->
    pass f rs v1 = Some c -> pass f rs v2 = Some c -> v1 = v2.
Proof.
  intros Hrange Hinj rs. induction rs as [|r rs IH];
    intros v1 v2 c Hwf H1 H2; simpl.
  - congruence.
  - apply Forall_cons in Hwf as [Hr Hrs].
    destruct (Hrange r v1 Hr H1) as (c1 & E1 & Hc1).
    destruct (Hrange r v2 Hr H2) as (c2 & E2 & Hc2).
    rewrite E1, E2. intros P1 P2.
    assert (c1 = c2) as <- by exact (IH c1 c2 c Hrs Hc1 Hc2 P1 P2).
    exact (Hinj r v1 v2 c1 Hr H1 H2 E1 E2).
Qed.

Lemma doForwardCipher_range (r : Rotor) (v : Z) :
  wf_rotor base r -> 0 <= v < base ->
  exists c, doForwardCipher base r v = Some c /\ 0 <= c < base.
Proof.
  intros Hr Hv.
  destruct (doForwardCipher_value base base_pos base_fits r v Hr Hv)
    as (c & Hc & _ & Hb).
  now exists c.
Qed.

Lemma doReverseCipher_range (r : Rotor) (v : Z) :
  wf_rotor base r -> 0 <= v < base ->
  exists c, doReverseCipher base r v = Some c /\ 0 <= c < base.
Proof.
  intros Hr Hv.
  destruct (doReverseCipher_value base base_pos base_fits r v Hr Hv)
    as (c & Hc & _ & Hb).
  now exists c.
Qed.

Lemma pass_range (f : Rotor -> Z -> option Z) :
  (forall r v, wf_rotor base r -> 0 <= v < base ->
     exists c, f r v = Some c /\ 0 <= c < base) ->
  forall rs v,
    Forall (wf_rotor base) rs -> 0 <= v < base ->
    exists c, pass f rs v = Some c /\ 0 <= c < base.
Proof.
  intros Hrange rs. induction rs as [|r rs IH]; intros v Hwf Hv; simpl.
  - now exists v.
  - apply Forall_cons in Hwf as [Hr Hrs].
    destruct (Hrange r v Hr Hv) as (c & -> & Hc). exact (IH c Hrs Hc).
Qed.

Lemma encode_value_inj (m : EnigmaMachine) (v1 v2 c : Z) :
  Forall (wf_rotor base) (rotors m) ->
  is_table base (reflector m) ->
  0 <= v1 < base -> 0 <= v2 < base ->
  encode_value base m v1 = Some c -> encode_value base m v2 = Some c ->
  v1 = v2.
Proof.
  intros Hwf Hrefl H1 H2. unfold encode_value.
  destruct (pass_range _ doForwardCipher_range (rotors m) v1 Hwf H1)
    as (a1 & Ea1 & Ha1).
  destruct (pass_range _ doForwardCipher_range (rotors m) v2 Hwf H2)
    as (a2 & Ea2 & Ha2).
  rewrite Ea1, Ea2.
  destruct (is_table_lookup base _ a1 Hrefl Ha1) as (b1 & Eb1 & Hb1).
  destruct (is_table_lookup base _ a2 Hrefl Ha2) as (b2 & Eb2 & Hb2).
  rewrite Eb1, Eb2. intros P1 P2.
  assert (Hrev : Forall (wf_rotor base) (reverse (rotors m)))
    by (apply Forall_reverse; exact Hwf).
  assert (b1 = b2) as <-
    by exact (pass_inj _ doReverseCipher_range doReverseCipher_inj
                _ b1 b2 c Hrev Hb1 Hb2 P1 P2).
  assert (a1 = a2) as <-
    by exact (table_lookup_inj base _ a1 a2 b1 Hrefl Eb1 Eb2).
  exact (pass_inj _ doForwardCipher_range doForwardCipher_inj
           _ v1 v2 a1 Hwf H1 H2 Ea1 Ea2).
Qed.

(** Through a rotor in its start position and back. *)
Lemma forward_then_reverse (r : Rotor) (v : Z) :
  start_rotor base r -> 0 <= v < base ->
  exists c, doForwardCipher base r v = Some c /\ 0 <= c < base
            /\ doReverseCipher base r c = Some v.
Proof.
  intros (Hwf & Hinv & Hp0) Hv.
  destruct (Hinv v Hv) as (c & Hf & Hr).
  assert (Hc : 0 <= c < base).
  { destruct Hwf as (_ & Ht & _).
    destruct (is_table_lookup base _ v Ht Hv) as (c' & Hc' & Hb).
    congruence. }
  exists c. unfold doForwardCipher, doReverseCipher. rewrite Hp0.
  do 2 (split_comparison; [|lia]).
  rewrite !Z.add_0_l, !wrap_small, !Z.mod_small by lia. auto.
Qed.

Lemma reverse_then_forward (r : Rotor) (v : Z) :
  start_rotor base r -> 0 <= v < base ->
  exists c, doReverseCipher base r v = Some c /\ 0 <= c < base
            /\ doForwardCipher base r c = Some v.
Proof.
  intros (Hwf & Hinv & Hp0) Hv.
  destruct (inverse_tables_onto base r v (proj1 (proj2 Hwf)) Hinv Hv)
    as (i & Hi & Hr & Hf).
  exists i. unfold doForwardCipher, doReverseCipher. rewrite Hp0.
  do 2 (split_comparison; [|lia]).
  rewrite !Z.add_0_l, !wrap_small, !Z.mod_small by lia. auto.
Qed.

Lemma pass_there_and_back (f g : Rotor -> Z -> option Z) :
  (forall r v, start_rotor base r -> 0 <= v < base ->
     exists c, f r v = Some c /\ 0 <= c < base /\ g r c = Some v) ->
  forall rs v,
    Forall (start_rotor base) rs -> 0 <= v < base ->
    exists c, pass f rs v = Some c /\ 0 <= c < base
              /\ pass g (reverse rs) c = Some v.
Proof.
  intros Hstep rs. induction rs as [|r rs IH]; intros v Hall Hv.
  - exists v. simpl. auto.
  - apply Forall_cons in Hall as [Hr Hrs].
    destruct (Hstep r v Hr Hv) as (c & Hf & Hc & Hg).
    destruct (IH c Hrs Hc) as (d & Hpf & Hd & Hpg).
    exists d. simpl. rewrite Hf. split; [exact Hpf|]. split; [exact Hd|].
    rewrite reverse_cons, pass_app, Hpg. simpl. now rewrite Hg.
Qed.

End Injective.

(** X9: through one rotor and back.  In the start position
    [doReverseCipher] undoes [doForwardCipher] and the other way round.
    In any position, what [doForwardCipher] returns for [val] is undone by
    the reverse table itself to [(position + val) mod base], the index
    that was read, not to [val]. *)
Theorem rotor_round_trip (base : Z) (r : Rotor) (val : Z) :
  0 < base ->
  2 * base <= 2 ^ 64 ->
  wf_rotor base r ->
  inverse_tables base r ->
  0 <= val < base ->
  (exists c,
     doForwardCipher base r val = Some c
     /\ doReverseCipher base (set_position r 0) c
        = Some ((position r + val) mod base)
     /\ (position r = 0 -> doReverseCipher base r c = Some val))
  /\ (position r = 0 ->
      exists c,
        doReverseCipher base r val = Some c
        /\ doForwardCipher base r c = Some val).
Proof.
  intros Hb1 Hb2 Hwf Hinv Hv. split.
  - pose proof Hwf as (Hp & Ht & _).
    assert (Hi : 0 <= (position r + val) mod base < base)
      by (apply Z.mod_pos_bound; lia).
    destruct (Hinv _ Hi) as (c & Hf & Hr).
    destruct (is_table_lookup base _ _ Ht Hi) as (c' & Hc' & Hc).
    assert (c' = c) as -> by congruence.
    exists c. unfold doForwardCipher, doReverseCipher.
    do 2 (split_comparison; [|lia]).
    rewrite wrap_small by lia. split; [exact Hf|].
    cbn [position set_position reverse_cipher].
    rewrite Z.add_0_l, wrap_small, (Z.mod_small c) by lia.
    split; [exact Hr|].
    intros Hp0. rewrite Hp0 in *.
    rewrite Z.add_0_l, wrap_small, (Z.mod_small c) by lia.
    rewrite Hr. f_equal. rewrite Z.add_0_l. apply Z.mod_small. lia.
  - intros Hp0.
    assert (Hs : start_rotor base r)
      by (split; [exact Hwf|split; assumption]).
    destruct (reverse_then_forward base Hb2 r val Hs Hv)
      as (c & Hr & _ & Hf).
    exists c. auto.
Qed.

(** X10: in every valid state [encode] maps different values of
    [0, base) to different values. *)
Theorem encode_is_injective (base : Z) (w : World) (v1 v2 c : Z)
    (w1 w2 : World) :
  0 < base ->
  2 * base <= 2 ^ 64 ->
  Forall (wf_rotor base) (rotors (machine w)) ->
  is_table base (reflector (machine w)) ->
  0 <= v1 < base ->
  0 <= v2 < base ->
  encode base v1 w = Some (c, w1) ->
  encode base v2 w = Some (c, w2) ->
  v1 = v2.
Proof.
  intros Hb1 Hb2 Hwf Hrefl H1 H2. rewrite !encode_reads. unfold lift.
  destruct (encode_value base (machine w) v1) as [c1|] eqn:E1; [|discriminate].
  destruct (encode_value base (machine w) v2) as [c2|] eqn:E2; [|discriminate].
  intros P1 P2. injection P1 as -> _. injection P2 as -> _.
  exact (encode_value_inj base Hb1 Hb2 (machine w) v1 v2 c Hwf Hrefl H1 H2
           E1 E2).
Qed.

(** X11: with every rotor in its start position and a reflector that
    undoes itself, [encode] undoes itself: [encode(encode(val)) = val];
    and when the reflector has no fixed point, no value is enciphered to
    itself. *)
Theorem encode_reciprocal_at_start (base : Z) (w : World) (val : Z) :
  0 < base ->
  2 * base <= 2 ^ 64 ->
  Forall (start_rotor base) (rotors (machine w)) ->
  is_involution base (reflector (machine w)) ->
  0 <= val < base ->
  exists c,
    0 <= c < base
    /\ encode base val w = Some (c, w)
    /\ encode base c w = Some (val, w)
    /\ (no_fixed_point base (reflector (machine w)) -> c <> val).
Proof.
  intros Hb1 Hb2 Hall Hrefl Hv.
  destruct (pass_there_and_back base (doForwardCipher base)
              (doReverseCipher base) (forward_then_reverse base Hb2)
              (rotors (machine w)) val Hall Hv) as (a & Hfa & Ha & Hba).
  destruct (Hrefl a Ha) as (b & Hb & Hab & Hbackab).
  assert (Hrev : Forall (start_rotor base) (reverse (rotors (machine w))))
    by (apply Forall_reverse; exact Hall).
  destruct (pass_there_and_back base (doReverseCipher base)
              (doForwardCipher base) (reverse_then_forward base Hb2)
              (reverse (rotors (machine w))) b Hrev Hb)
    as (c & Hbc & Hc & Hfc).
  rewrite reverse_involutive in Hfc.
  exists c. split; [exact Hc|].
  rewrite !encode_reads. unfold encode_value.
  rewrite Hfa, Hab, Hbc, Hfc, Hbackab, Hba.
  split; [reflexivity|]. split; [reflexivity|].
  intros Hnfp ->. rewrite Hfa in Hfc. injection Hfc as ->.
  exact (Hnfp b Hb Hab).
Qed.

(** ** What advancing leaves alone *)

Lemma moved_refl (w : World) : same_machine_moved w w.
Proof.
  split; [reflexivity|]. split.
  - apply Forall2_same_length_lookup_2; [reflexivity|].
    intros i r r' H1 H2. rewrite H1 in H2. injection H2 as <-.
    symmetry. apply set_position_same.
  - now exists [].
Qed.

Lemma moved_trans (w1 w2 w3 : World) :
  same_machine_moved w1 w2 -> same_machine_moved w2 w3 ->
  same_machine_moved w1 w3.
Proof.
  intros (Hr1 & Hf1 & m1 & Ho1) (Hr2 & Hf2 & m2 & Ho2).
  split; [congruence|]. split.
  - apply Forall2_same_length_lookup. split.
    + apply Forall2_length in Hf1, Hf2. congruence.
    + intros i r r3 Hi H3.
      destruct (Forall2_lookup_l _ _ _ _ _ Hf1 Hi) as (r2 & H2 & E2).
      destruct (Forall2_lookup_l _ _ _ _ _ Hf2 H2) as (r3' & H3' & E3).
      rewrite H3 in H3'. injection H3' as <-.
      rewrite E3, E2. reflexivity.
  - exists (m2 ++ m1). rewrite Ho2, Ho1. now rewrite app_assoc.
Qed.

Lemma moved_with_rotor (i : nat) (r : Rotor) (p : Z) (w : World) :
  rotors (machine w) !! i = Some r ->
  same_machine_moved w (with_rotor i (set_position r p) w).
Proof.
  intros Hi. split; [reflexivity|]. split; [|now exists []].
  simpl. apply Forall2_same_length_lookup_2; [now rewrite length_insert|].
  intros j x y Hx Hy. destruct (decide (j = i)) as [->|Hne].
  - rewrite list_lookup_insert_eq in Hy by exact (lookup_lt_Some _ _ _ Hi).
    rewrite Hi in Hx. injection Hx as <-. injection Hy as <-. reflexivity.
  - rewrite list_lookup_insert_ne in Hy by congruence.
    rewrite Hx in Hy. injection Hy as <-. symmetry. apply set_position_same.
Qed.

Lemma Rotor_advance_steps_after (base : Z) (r : Rotor) (steps : Z)
    (a : Advanced) :
  Rotor_advance_steps base r steps = Some a ->
  after a = set_position r (returned a).
Proof.
  unfold Rotor_advance_steps.
  destruct (util.make_sorted_array _ _) as [lead trail].
  destruct (_ <? base); [|discriminate].
  intros H. injection H as <-. reflexivity.
Qed.

Lemma advance_rotor_moved (base : Z) (depth : nat) :
  forall i steps w w',
    advance_rotor base depth i steps w = Some (tt, w') ->
    same_machine_moved w w'.
Proof.
  induction depth as [|depth IH]; intros i steps w w' H; [discriminate|].
  destruct (rotors (machine w) !! i) as [r|] eqn:Hr.
  2:{ simpl in H. unfold bind at 1, get_rotor at 1 in H.
      rewrite Hr in H. discriminate. }
  destruct (Rotor_advance_steps base r steps) as [a|] eqn:Ha.
  2:{ simpl in H. unfold bind at 1, get_rotor at 1 in H.
      rewrite Hr in H. simpl in H. unfold bind at 1 in H.
      rewrite Ha in H. discriminate. }
  rewrite (advance_rotor_unroll base depth i steps w r a Hr Ha) in H.
  rewrite (Rotor_advance_steps_after base r steps a Ha) in H.
  pose proof (moved_with_rotor i r (returned a) w Hr) as Hm.
  destruct (knock a) as [knocks|].
  2:{ injection H as <-. exact Hm. }
  destruct (turnover_callback r) as [| |next].
  - injection H as <-. exact Hm.
  - unfold observe in H. injection H as <-.
    apply (moved_trans _ _ _ Hm).
    split; [reflexivity|].
    split; [exact (proj1 (proj2 (moved_refl _)))|].
    now exists [knocks].
  - apply (moved_trans _ _ _ Hm). exact (IH _ _ _ _ H).
Qed.

Lemma advance_moved (base steps : Z) (w w' : World) :
  advance base steps w = Some (tt, w') -> same_machine_moved w w'.
Proof.
  unfold advance, bind, rotor_count. apply advance_rotor_moved.
Qed.

Lemma encodeNext_moved (base val v : Z) (w w' : World) :
  encodeNext base val w = Some (v, w') -> same_machine_moved w w'.
Proof.
  unfold encodeNext, bind.
  destruct (advance base 1 w) as [[[] w1]|] eqn:E; [|discriminate].
  rewrite encode_reads. unfold lift.
  destruct (encode_value base (machine w1) val); [|discriminate].
  intros H. injection H as _ <-. exact (advance_moved _ _ _ _ E).
Qed.

(** X12: whatever [advance], [encodeNext] and the generator do, they
    change rotor positions only: the tables, notches and callbacks of
    every rotor, the number of rotors and the reflector stay as they
    were, and nothing a client callback was told is forgotten. *)
Theorem advancing_moves_rotors_only (base : Z) (w : World) :
  (forall steps w',
     advance base steps w = Some (tt, w') -> same_machine_moved w w')
  /\ (forall val v w',
        encodeNext base val w = Some (v, w') -> same_machine_moved w w')
  /\ (forall n g vs g' w',
        draws base n g w = Some ((vs, g'), w') -> same_machine_moved w w').
Proof.
  split; [|split].
  - intros steps w'. apply advance_moved.
  - intros val v w'. apply encodeNext_moved.
  - intros n. revert w. induction n as [|n IH]; intros w g vs g' w' H.
    + injection H as _ _ <-. apply moved_refl.
    + simpl in H. unfold bind at 1 in H. unfold Generator_call at 1 in H.
      unfold bind at 1 in H.
      destruct (encodeNext base (seq_val g) w) as [[v w1]|] eqn:E;
        [|discriminate].
      simpl in H. unfold bind at 1 in H.
      destruct (draws base n (mkGenerator v) w1) as [[[vs1 g1] w2]|] eqn:E2;
        [|discriminate].
      injection H as _ _ <-.
      exact (moved_trans _ _ _ (encodeNext_moved _ _ _ _ _ E)
               (IH _ _ _ _ _ E2)).
Qed.

(** ** Calls in sequence *)

Lemma run_op_total (base : Z) (w : World) (o : Op) :
  0 < base ->
  2 * base <= 2 ^ 64 ->
  wf_world base w ->
  op_in_range base o ->
  exists v w', run_op base w o = Some (v, w')
               /\ wf_world base w'
               /\ same_machine_moved w w'.
Proof.
  intros Hb1 Hb2 Hwf Ho. destruct o as [steps|val|val]; simpl in *.
  - destruct (advance_total base Hb1 steps w Hwf) as (w' & Hrun & Hwf').
    rewrite Hrun. eexists _, _. split; [reflexivity|].
    split; [exact Hwf'|]. exact (advance_moved _ _ _ _ Hrun).
  - pose proof Hwf as (_ & _ & Hall & Hrefl).
    destruct (encode_value_composition base Hb1 Hb2 (machine w) val
                Hall Hrefl Ho) as (v & Hcode & _).
    rewrite encode_reads, Hcode. simpl.
    eexists _, _. split; [reflexivity|].
    split; [exact Hwf|apply moved_refl].
  - destruct (encodeNext_total base Hb1 Hb2 val w Hwf Ho)
      as (v & w' & Hrun & _ & _ & _ & Hwf').
    rewrite Hrun. eexists _, _. split; [reflexivity|].
    split; [exact Hwf'|]. exact (encodeNext_moved _ _ _ _ _ Hrun).
Qed.

(** X13: on a machine in a valid state every sequence of [advance],
    [encode] and [encodeNext] calls, with any step counts and with values
    below [base], returns, leaves the machine in a valid state and changes
    nothing but rotor positions. *)
Theorem machine_calls_return (base : Z) (os : list Op) (w : World) :
  0 < base ->
  2 * base <= 2 ^ 64 ->
  wf_world base w ->
  Forall (op_in_range base) os ->
  exists w',
    run_ops base os w = Some w'
    /\ wf_world base w'
    /\ same_machine_moved w w'.
Proof.
  intros Hb1 Hb2. revert w.
  induction os as [|o os IH]; intros w Hwf Hos.
  - exists w. split; [reflexivity|]. split; [exact Hwf|apply moved_refl].
  - apply Forall_cons in Hos as [Ho Hos].
    destruct (run_op_total base w o Hb1 Hb2 Hwf Ho)
      as (v & w1 & Hrun & Hwf1 & Hm1).
    destruct (IH w1 Hwf1 Hos) as (w' & Hrest & Hwf' & Hm').
    exists w'. simpl. rewrite Hrun.
    split; [exact Hrest|]. split; [exact Hwf'|].
    exact (moved_trans _ _ _ Hm1 Hm').
Qed.

(** X14: two batch calls in a row leave the rotor where one batch call
    with the sum of the steps leaves it, as long as the sum stays in
    [std::size_t]. *)
Theorem batch_advance_positions_add (base : Z) (r : Rotor) (s1 s2 : Z) :
  0 < base ->
  0 <= position r < base ->
  0 <= s1 ->
  0 <= s2 ->
  position r + s1 + s2 < 2 ^ 64 ->
  exists a1 a2 a,
    Rotor_advance_steps base r s1 = Some a1
    /\ Rotor_advance_steps base (after a1) s2 = Some a2
    /\ Rotor_advance_steps base r (s1 + s2) = Some a
    /\ after a2 = after a
    /\ position (after a) = (position r + s1 + s2) mod base.
Proof.
  intros Hb Hp H1 H2 Hfit.
  destruct (Rotor_advance_steps_total base Hb r s1)
    as (a1 & E1 & A1 & _ & P1 & _).
  destruct (Rotor_advance_steps_total base Hb (after a1) s2)
    as (a2 & E2 & A2 & _).
  destruct (Rotor_advance_steps_total base Hb r (s1 + s2))
    as (a & E & A & _).
  exists a1, a2, a. do 3 (split; [assumption|]).
  rewrite A2, A, A1. cbn [position set_position].
  rewrite (wrap_small (position r + s1)) by lia.
  rewrite (wrap_small (position r + (s1 + s2))) by lia.
  assert (Hm : 0 <= (position r + s1) mod base < base)
    by (apply Z.mod_pos_bound; lia).
  assert (Hle : (position r + s1) mod base <= position r + s1)
    by (apply Z.mod_le; lia).
  rewrite (wrap_small ((position r + s1) mod base + s2)) by lia.
  rewrite Zplus_mod_idemp_l, Z.add_assoc. split; reflexivity.
Qed.

(** ** The rotor's constructor on any table *)

Lemma constructor_rounds_any (Index_max : Z) (cipher uninit : list Z)
    (k : nat) :
  Forall (fun c => 0 <= c < Z.of_nat (length uninit)) cipher ->
  Z.of_nat (length cipher) <= Index_max + 1 ->
  (k <= length cipher)%nat ->
  exists R,
    rounds (Rotor_new_round Index_max cipher) (seq 0 k) uninit = Some R
    /\ length R = length uninit
    /\ (forall i c, (i < k)%nat -> cipher !! i = Some c ->
          (forall j, (i < j < k)%nat -> cipher !! j <> Some c) ->
          at_index R c = Some (Z.of_nat i))
    /\ (forall c, (forall i, (i < k)%nat -> cipher !! i <> Some c) ->
          at_index R c = at_index uninit c).
Proof.
  intros Hrange Hidx. induction k as [|k IH]; intros Hk.
  - exists uninit. simpl. split; [reflexivity|]. split; [reflexivity|].
    split; [intros; lia|reflexivity].
  - destruct IH as (R & Hrun & Hlen & Hlast & Hrest); [lia|].
    rewrite seq_S, rounds_app, Hrun. simpl.
    destruct (lookup_lt_is_Some_2 cipher k) as [ck Hck]; [lia|].
    assert (Hcr : 0 <= ck < Z.of_nat (length uninit))
      by (rewrite Forall_lookup in Hrange; exact (Hrange k ck Hck)).
    unfold Rotor_new_round. rewrite at_index_nat, Hck.
    unfold to_Index. rewrite Z.mod_small by lia.
    rewrite store_in_range by lia.
    eexists. split; [reflexivity|].
    split; [now rewrite length_insert|].
    assert (Hread : forall c, 0 <= c ->
              at_index (<[Z.to_nat ck := Z.of_nat k]> R) c
              = if decide (c = ck) then Some (Z.of_nat k) else at_index R c).
    { intros c Hc. unfold at_index. destruct (Z.leb_spec 0 c); [|lia].
      destruct (decide (c = ck)) as [->|Hne].
      - apply list_lookup_insert_eq. lia.
      - apply list_lookup_insert_ne. lia. }
    split.
    + intros i c Hi Hc Hlater.
      assert (0 <= c)
        by (rewrite Forall_lookup in Hrange; specialize (Hrange i c Hc); lia).
      rewrite Hread by assumption.
      destruct (decide (c = ck)) as [->|Hne].
      * destruct (decide (i = k)) as [->|Hik]; [reflexivity|].
        exfalso. apply (Hlater k); [lia|exact Hck].
      * apply Hlast; [|exact Hc|intros j Hj; apply Hlater; lia].
        destruct (decide (i = k)) as [->|]; [congruence|lia].
    + intros c Hnone.
      destruct (decide (c = ck)) as [->|Hne].
      * exfalso. apply (Hnone k); [lia|exact Hck].
      * destruct (Z.leb_spec 0 c) as [Hc|Hc].
        -- rewrite Hread by assumption.
           destruct (decide (c = ck)); [congruence|].
           apply Hrest. intros i Hi. apply Hnone. lia.
        -- unfold at_index. destruct (Z.leb_spec 0 c); [lia|reflexivity].
Qed.

(** X15: the constructor accepts any table whose entries are indices of
    the reverse array, a permutation or not.  The reverse table then
    holds, for a value that occurs in the table, the last index at which
    it occurs, and for a value that does not occur, whatever its
    uninitialised storage held. *)
Theorem Rotor_new_any_table (Index_max : Z) (cipher uninit : list Z)
    (notches : Z) (callback : TurnoverFunc) :
  Z.of_nat (length cipher) < 2 ^ 32 ->
  Z.of_nat (length cipher) <= Index_max + 1 ->
  Forall (fun c => 0 <= c < Z.of_nat (length uninit)) cipher ->
  exists r,
    Rotor_new Index_max cipher notches callback uninit = Some r
    /\ forward_cipher r = cipher
    /\ length (reverse_cipher r) = length uninit
    /\ (forall i c, cipher !! i = Some c ->
          (forall j, (i < j)%nat -> cipher !! j <> Some c) ->
          at_index (reverse_cipher r) c = Some (Z.of_nat i))
    /\ (forall c, c ∉ cipher ->
          at_index (reverse_cipher r) c = at_index uninit c).
Proof.
  intros Hsmall Hidx Hrange.
  destruct (constructor_rounds_any Index_max cipher uninit (length cipher)
              Hrange Hidx) as (R & Hrun & Hlen & Hlast & Hrest); [lia|].
  unfold Rotor_new. rewrite for_unsigned_rounds, Hrun by exact Hsmall.
  eexists. split; [reflexivity|]. simpl.
  split; [reflexivity|]. split; [exact Hlen|]. split.
  - intros i c Hc Hlater. apply Hlast; [|exact Hc|].
    + exact (lookup_lt_Some _ _ _ Hc).
    + intros j Hj. apply Hlater. lia.
  - intros c Hnot. apply Hrest. intros i _ Hi.
    apply Hnot. apply list_elem_of_lookup. now exists i.
Qed.

(** ** Client callbacks *)

Lemma advance_rotor_silent (base : Z) (depth : nat) :
  forall i steps w w',
    Forall (fun r => turnover_callback r <> client_callback)
           (rotors (machine w)) ->
    advance_rotor base depth i steps w = Some (tt, w') ->
    observed w' = observed w.
Proof.
  induction depth as [|depth IH]; intros i steps w w' Hcb H; [discriminate|].
  destruct (rotors (machine w) !! i) as [r|] eqn:Hr.
  2:{ simpl in H. unfold bind at 1, get_rotor at 1 in H.
      rewrite Hr in H. discriminate. }
  destruct (Rotor_advance_steps base r steps) as [a|] eqn:Ha.
  2:{ simpl in H. unfold bind at 1, get_rotor at 1 in H.
      rewrite Hr in H. simpl in H. unfold bind at 1 in H.
      rewrite Ha in H. discriminate. }
  rewrite (advance_rotor_unroll base depth i steps w r a Hr Ha) in H.
  rewrite (Rotor_advance_steps_after base r steps a Ha) in H.
  destruct (knock a) as [knocks|].
  2:{ injection H as <-. reflexivity. }
  destruct (turnover_callback r) as [| |next] eqn:E.
  - injection H as <-. reflexivity.
  - exfalso. rewrite Forall_lookup in Hcb. exact (Hcb i r Hr E).
  - apply IH in H; [exact H|]. simpl.
    apply Forall_insert; [exact Hcb|]. simpl.
    rewrite Forall_lookup in Hcb. exact (Hcb i r Hr).
Qed.

(** X16: a machine none of whose rotors carries a client's callback, as
    one assembled from rotors with the default [ignoreTurnover], tells
    nobody anything: advancing it adds nothing to what was observed.  A
    machine of one rotor with a client's callback tells the client the
    count of every batch advance that has one. *)
Theorem turnovers_reach_clients_only (base : Z) (w : World) :
  (Forall (fun r => turnover_callback r <> client_callback)
          (rotors (machine w)) ->
   forall steps w',
     advance base steps w = Some (tt, w') -> observed w' = observed w)
  /\ (forall r steps a,
        rotors (machine w) = [r] ->
        turnover_callback r = client_callback ->
        Rotor_advance_steps base r steps = Some a ->
        exists w',
          advance base steps w = Some (tt, w')
          /\ rotors (machine w') = [after a]
          /\ observed w'
             = match knock a with
               | Some knocks => knocks :: observed w
               | None => observed w
               end).
Proof.
  split.
  - intros Hcb steps w'. unfold advance, bind, rotor_count.
    apply advance_rotor_silent. exact Hcb.
  - intros r steps a Hrs Hcb Ha. unfold advance, bind, rotor_count.
    rewrite Hrs. cbn [length].
    assert (Hr : rotors (machine w) !! 0%nat = Some r) by now rewrite Hrs.
    rewrite (advance_rotor_unroll base 0 0 steps w r a Hr Ha), Hcb.
    destruct (knock a) as [knocks|]; eexists; (split; [reflexivity|]);
      simpl; rewrite Hrs; split; reflexivity.
Qed.

(** ** Instances on the demonstration machine *)

Lemma Rotor_new_start (base Index_max : Z) (F uninit : list Z) (notches : Z)
    (callback : TurnoverFunc) (r : Rotor) :
  0 < base < 2 ^ 32 ->
  base <= Index_max ->
  is_table base F ->
  length uninit = Z.to_nat base ->
  Rotor_new Index_max F notches callback uninit = Some r ->
  start_rotor base r.
Proof.
  intros Hb Hidx Ht Hu Hnew.
  pose proof (Rotor_new_wf base Index_max F uninit notches callback r
                Hb Hidx Ht Hu Hnew) as Hwf.
  pose proof Ht as (Hlen & Hrange & Hnd).
  assert (Hn : Z.of_nat (length F) = base) by lia.
  destruct (Rotor_new_value Index_max F uninit) with (notches := notches)
    (callback := callback) as (R & HR & Hrl & Hinv).
  { now rewrite Hn. }
  { exact Hnd. }
  { lia. }
  { lia. }
  { lia. }
  rewrite HR in Hnew. injection Hnew as <-.
  split; [exact Hwf|]. split; [|reflexivity].
  intros i Hi. simpl.
  destruct (lookup_lt_is_Some_2 F (Z.to_nat i)) as [c Hc]; [lia|].
  exists c. unfold at_index.
  destruct (Z.leb_spec 0 i); [|lia]. split; [exact Hc|].
  assert (0 <= c < base)
    by (rewrite Forall_lookup in Hrange; exact (Hrange _ _ Hc)).
  destruct (Z.leb_spec 0 c); [|lia].
  rewrite (Hinv _ _ Hc). f_equal. lia.
Qed.

Lemma start_rotor_callback (base : Z) (r : Rotor) (callback : TurnoverFunc) :
  start_rotor base r -> start_rotor base (setTurnoverCallback r callback).
Proof. intros H. exact H. Qed.

Lemma demo_tables :
  is_table 26 cipherI /\ is_table 26 cipherII /\ is_table 26 cipherIII
  /\ is_table 26 reflectorB.
Proof. repeat split; apply table26; vm_compute; reflexivity. Qed.

Lemma demo_start_rotors :
  start_rotor 26 rotorI /\ start_rotor 26 rotorII /\ start_rotor 26 rotorIII.
Proof.
  destruct demo_machine_constructed as (H3 & H2 & H1 & _).
  destruct demo_tables as (T1 & T2 & T3 & _).
  assert (Hb : 0 < 26 < 2 ^ 32) by lia.
  assert (Hi : 26 <= 255) by lia.
  split; [|split].
  - exact (Rotor_new_start 26 255 _ uninit26 _ _ _ Hb Hi T1 eq_refl H1).
  - exact (Rotor_new_start 26 255 _ uninit26 _ _ _ Hb Hi T2 eq_refl H2).
  - exact (Rotor_new_start 26 255 _ uninit26 _ _ _ Hb Hi T3 eq_refl H3).
Qed.

Lemma demo_start : Forall (start_rotor 26) (rotors (machine demo_world)).
Proof.
  destruct demo_start_rotors as (S1 & S2 & S3).
  repeat apply List.Forall_cons; try apply List.Forall_nil.
  - exact (start_rotor_callback 26 rotorIII (advance_next_rotor 1) S3).
  - exact (start_rotor_callback 26 rotorII (advance_next_rotor 2) S2).
  - exact S1.
Qed.

Lemma reflectorB_involution :
  is_involution 26 reflectorB /\ no_fixed_point 26 reflectorB.
Proof.
  assert (Hall : Forall
            (fun v => exists c, 0 <= c < 26
                                /\ at_index reflectorB v = Some c
                                /\ at_index reflectorB c = Some v
                                /\ c <> v)
            (seqZ 0 26)).
  { change (seqZ 0 26) with (Z.of_nat <$> seq 0 26).
    cbn [seq fmap list_fmap].
    repeat (apply List.Forall_cons;
              [eexists; split; [|split; [reflexivity|split; [reflexivity|]]];
               lia|]).
    apply List.Forall_nil. }
  rewrite Forall_seqZ in Hall. split.
  - intros v Hv. destruct (Hall v ltac:(lia)) as (c & Hc & H1 & H2 & _).
    exists c. auto.
  - intros v Hv E. destruct (Hall v ltac:(lia)) as (c & _ & H1 & _ & Hne).
    congruence.
Qed.

Lemma batch_advance_closed_form_witness :
  0 < 26
  /\ 0 <= position (set_position rotorIII 21) < 26
  /\ 0 <= 30
  /\ position (set_position rotorIII 21) + 30 + 26 < 2 ^ 64
  /\ exists a,
       Rotor_advance_steps 26 (set_position rotorIII 21) 30 = Some a
       /\ after a = set_position rotorIII 25
       /\ knocks_of a = 1.
Proof.
  assert (Hb : 0 < 26) by lia.
  assert (Hp : 0 <= position (set_position rotorIII 21) < 26) by (simpl; lia).
  assert (Hs : 0 <= 30) by lia.
  assert (Hfit : position (set_position rotorIII 21) + 30 + 26 < 2 ^ 64)
    by (simpl; lia).
  split; [exact Hb|]. split; [exact Hp|]. split; [exact Hs|].
  split; [exact Hfit|].
  destruct (batch_advance_closed_form 26 (set_position rotorIII 21) 30
              Hb Hp Hs Hfit) as (a & Ha & Hafter & _ & Hk & _).
  exists a. split; [exact Ha|]. split; [exact Hafter|].
  rewrite Hk. vm_compute. reflexivity.
Defined.

Lemma single_steps_closed_form_witness :
  0 < 26 < 2 ^ 64
  /\ 0 <= position (set_position rotorIII 21) < 26
  /\ advance_times 26 30 (set_position rotorIII 21)
     = Some (set_position rotorIII 25, 2).
Proof.
  assert (Hb : 0 < 26 < 2 ^ 64) by lia.
  assert (Hp : 0 <= position (set_position rotorIII 21) < 26) by (simpl; lia).
  split; [exact Hb|]. split; [exact Hp|].
  exact (proj1 (single_steps_closed_form 26 30 (set_position rotorIII 21)
                  Hb Hp)).
Defined.

Lemma batch_and_single_steps_same_rotor_witness :
  0 < 26 < 2 ^ 64
  /\ 0 <= position rotorIII < 26
  /\ position rotorIII + Z.of_nat 100 < 2 ^ 64
  /\ exists a r' total,
       Rotor_advance_steps 26 rotorIII (Z.of_nat 100) = Some a
       /\ advance_times 26 100 rotorIII = Some (r', total)
       /\ after a = r'
       /\ position r' = (position rotorIII + Z.of_nat 100) mod 26.
Proof.
  assert (Hb : 0 < 26 < 2 ^ 64) by lia.
  assert (Hp : 0 <= position rotorIII < 26) by (simpl; lia).
  assert (Hfit : position rotorIII + Z.of_nat 100 < 2 ^ 64) by (simpl; lia).
  split; [exact Hb|]. split; [exact Hp|]. split; [exact Hfit|].
  exact (batch_and_single_steps_same_rotor 26 100 rotorIII Hb Hp Hfit).
Defined.


Lemma no_notch_no_turnover_witness :
  notches (mkRotor ignoreTurnover cipherIII (reverse_cipher rotorIII) 4 0) = 0
  /\ forall steps a,
       Rotor_advance_steps 26
         (mkRotor ignoreTurnover cipherIII (reverse_cipher rotorIII) 4 0)
         steps = Some a ->
       knock a = None.
Proof.
  split; [reflexivity|].
  exact (proj2 (no_notch_no_turnover 26
                  (mkRotor ignoreTurnover cipherIII (reverse_cipher rotorIII)
                           4 0)
                  eq_refl)).
Defined.

Lemma Rotor_new_entry_out_of_range_witness :
  [0; 5; 1] !! 1%nat = Some 5
  /\ ~ (0 <= 5 < Z.of_nat (length [9; 9; 9]))
  /\ Rotor_new 255 [0; 5; 1] 0 ignoreTurnover [9; 9; 9] = None.
Proof.
  assert (Hi : [0; 5; 1] !! 1%nat = Some 5) by reflexivity.
  assert (Hc : ~ (0 <= 5 < Z.of_nat (length [9; 9; 9]))) by (simpl; lia).
  split; [exact Hi|]. split; [exact Hc|].
  exact (Rotor_new_entry_out_of_range 255 [0; 5; 1] [9; 9; 9] 0
           ignoreTurnover 1 5 Hi Hc).
Defined.


Lemma EnigmaMachine_new_wires_witness :
  (0 < length [rotorIII; rotorII; rotorI])%nat
  /\ Z.of_nat (length [rotorIII; rotorII; rotorI]) - 1 < 2 ^ 32
  /\ exists m,
       EnigmaMachine_new [rotorIII; rotorII; rotorI] reflectorB = Some m
       /\ turnover_callback <$> rotors m
          = [advance_next_rotor 1; advance_next_rotor 2; ignoreTurnover].
Proof.
  assert (Hn : (0 < length [rotorIII; rotorII; rotorI])%nat) by (simpl; lia).
  assert (Hs : Z.of_nat (length [rotorIII; rotorII; rotorI]) - 1 < 2 ^ 32)
    by (simpl; lia).
  split; [exact Hn|]. split; [exact Hs|].
  destruct (proj2 (EnigmaMachine_new_wires [rotorIII; rotorII; rotorI]
                     reflectorB) Hn Hs) as (m & Hnew & _ & Hlen & Hat).
  exists m. split; [exact Hnew|].
  pose proof (Hat 0%nat rotorIII eq_refl) as H0.
  pose proof (Hat 1%nat rotorII eq_refl) as H1.
  pose proof (Hat 2%nat rotorI eq_refl) as H2.
  destruct (rotors m) as [|r0 [|r1 [|r2 [|r3 rest]]]]; try discriminate.
  simpl in H0, H1, H2.
  injection H0 as ->. injection H1 as ->. injection H2 as ->. reflexivity.
Defined.

Lemma rotor_round_trip_witness :
  0 < 26
  /\ 2 * 26 <= 2 ^ 64
  /\ wf_rotor 26 rotorII
  /\ inverse_tables 26 rotorII
  /\ 0 <= 9 < 26
  /\ exists c,
       doForwardCipher 26 rotorII 9 = Some c
       /\ doReverseCipher 26 rotorII c = Some 9.
Proof.
  assert (Hb1 : 0 < 26) by lia.
  assert (Hb2 : 2 * 26 <= 2 ^ 64) by lia.
  destruct demo_start_rotors as (_ & (Hwf & Hinv & Hp0) & _).
  assert (Hv : 0 <= 9 < 26) by lia.
  split; [exact Hb1|]. split; [exact Hb2|]. split; [exact Hwf|].
  split; [exact Hinv|]. split; [exact Hv|].
  destruct (proj1 (rotor_round_trip 26 rotorII 9 Hb1 Hb2 Hwf Hinv Hv))
    as (c & Hf & _ & Hback).
  exists c. split; [exact Hf|exact (Hback Hp0)].
Defined.

Lemma encode_is_injective_witness :
  0 < 26
  /\ 2 * 26 <= 2 ^ 64
  /\ Forall (wf_rotor 26) (rotors (machine demo_world))
  /\ is_table 26 (reflector (machine demo_world))
  /\ forall v, 0 <= v < 26 ->
       encode 26 v demo_world = Some (20, demo_world) -> v = 0.
Proof.
  assert (Hb1 : 0 < 26) by lia.
  assert (Hb2 : 2 * 26 <= 2 ^ 64) by lia.
  destruct demo_wf as (_ & _ & Hall & Hrefl).
  split; [exact Hb1|]. split; [exact Hb2|]. split; [exact Hall|].
  split; [exact Hrefl|].
  intros v Hv Hcode.
  assert (H0 : encode 26 0 demo_world = Some (20, demo_world))
    by (vm_compute; reflexivity).
  exact (encode_is_injective 26 demo_world v 0 20 demo_world demo_world
           Hb1 Hb2 Hall Hrefl Hv ltac:(lia) Hcode H0).
Defined.

Lemma encode_reciprocal_at_start_witness :
  0 < 26
  /\ 2 * 26 <= 2 ^ 64
  /\ Forall (start_rotor 26) (rotors (machine demo_world))
  /\ is_involution 26 (reflector (machine demo_world))
  /\ 0 <= 0 < 26
  /\ encode 26 20 demo_world = Some (0, demo_world).
Proof.
  assert (Hb1 : 0 < 26) by lia.
  assert (Hb2 : 2 * 26 <= 2 ^ 64) by lia.
  assert (Hv : 0 <= 0 < 26) by lia.
  pose proof (proj1 reflectorB_involution) as Hrefl.
  split; [exact Hb1|]. split; [exact Hb2|]. split; [exact demo_start|].
  split; [exact Hrefl|]. split; [exact Hv|].
  destruct (encode_reciprocal_at_start 26 demo_world 0 Hb1 Hb2 demo_start
              Hrefl Hv) as (c & _ & Hc & Hback & _).
  assert (H0 : encode 26 0 demo_world = Some (20, demo_world))
    by (vm_compute; reflexivity).
  rewrite H0 in Hc. injection Hc as <-. exact Hback.
Defined.

Lemma advancing_moves_rotors_only_witness :
  exists w',
    advance 26 1000 demo_world = Some (tt, w')
    /\ same_machine_moved demo_world w'.
Proof.
  destruct (advance 26 1000 demo_world) as [[[] w']|] eqn:E.
  - exists w'. split; [reflexivity|].
    exact (proj1 (advancing_moves_rotors_only 26 demo_world) 1000 w' E).
  - vm_compute in E. discriminate.
Defined.

Lemma machine_calls_return_witness :
  0 < 26
  /\ 2 * 26 <= 2 ^ 64
  /\ wf_world 26 demo_world
  /\ Forall (op_in_range 26)
       [op_advance 5; op_encode 3; op_encodeNext 25; op_advance (2 ^ 64 - 1)]
  /\ exists w',
       run_ops 26
         [op_advance 5; op_encode 3; op_encodeNext 25; op_advance (2 ^ 64 - 1)]
         demo_world = Some w'
       /\ wf_world 26 w'.
Proof.
  assert (Hb1 : 0 < 26) by lia.
  assert (Hb2 : 2 * 26 <= 2 ^ 64) by lia.
  assert (Hos : Forall (op_in_range 26)
            [op_advance 5; op_encode 3; op_encodeNext 25;
             op_advance (2 ^ 64 - 1)])
    by (repeat (apply List.Forall_cons; [simpl; try lia; exact I|]);
        apply List.Forall_nil).
  split; [exact Hb1|]. split; [exact Hb2|]. split; [exact demo_wf|].
  split; [exact Hos|].
  destruct (machine_calls_return 26 _ demo_world Hb1 Hb2 demo_wf Hos)
    as (w' & Hrun & Hwf & _).
  exists w'. split; [exact Hrun|exact Hwf].
Defined.

Lemma batch_advance_positions_add_witness :
  0 < 26
  /\ 0 <= position rotorIII < 26
  /\ 0 <= 40
  /\ 0 <= 50
  /\ position rotorIII + 40 + 50 < 2 ^ 64
  /\ exists a1 a2 a,
       Rotor_advance_steps 26 rotorIII 40 = Some a1
       /\ Rotor_advance_steps 26 (after a1) 50 = Some a2
       /\ Rotor_advance_steps 26 rotorIII (40 + 50) = Some a
       /\ after a2 = after a.
Proof.
  assert (Hb : 0 < 26) by lia.
  assert (Hp : 0 <= position rotorIII < 26) by (simpl; lia).
  assert (H1 : 0 <= 40) by lia.
  assert (H2 : 0 <= 50) by lia.
  assert (Hfit : position rotorIII + 40 + 50 < 2 ^ 64) by (simpl; lia).
  split; [exact Hb|]. split; [exact Hp|]. split; [exact H1|].
  split; [exact H2|]. split; [exact Hfit|].
  destruct (batch_advance_positions_add 26 rotorIII 40 50 Hb Hp H1 H2 Hfit)
    as (a1 & a2 & a & E1 & E2 & E & Hsame & _).
  exists a1, a2, a. auto.
Defined.

Lemma Rotor_new_any_table_witness :
  Z.of_nat (length [1; 1; 0]) < 2 ^ 32
  /\ Z.of_nat (length [1; 1; 0]) <= 255 + 1
  /\ Forall (fun c => 0 <= c < Z.of_nat (length [7; 7; 7])) [1; 1; 0]
  /\ exists r,
       Rotor_new 255 [1; 1; 0] 0 ignoreTurnover [7; 7; 7] = Some r
       /\ reverse_cipher r = [2; 1; 7].
Proof.
  assert (Hs : Z.of_nat (length [1; 1; 0]) < 2 ^ 32) by (simpl; lia).
  assert (Hi : Z.of_nat (length [1; 1; 0]) <= 255 + 1) by (simpl; lia).
  assert (Hr : Forall (fun c => 0 <= c < Z.of_nat (length [7; 7; 7]))
                 [1; 1; 0])
    by (repeat (apply List.Forall_cons; [simpl; lia|]); apply List.Forall_nil).
  split; [exact Hs|]. split; [exact Hi|]. split; [exact Hr|].
  destruct (Rotor_new_any_table 255 [1; 1; 0] [7; 7; 7] 0 ignoreTurnover
              Hs Hi Hr) as (r & Hnew & _).
  exists r. split; [exact Hnew|].
  assert (E : Rotor_new 255 [1; 1; 0] 0 ignoreTurnover [7; 7; 7]
              = Some (mkRotor ignoreTurnover [1; 1; 0] [2; 1; 7] 0 0))
    by (vm_compute; reflexivity).
  rewrite E in Hnew. injection Hnew as <-. reflexivity.
Defined.

Lemma turnovers_reach_clients_only_witness :
  Forall (fun r => turnover_callback r <> client_callback)
         (rotors (machine demo_world))
  /\ forall steps w',
       advance 26 steps demo_world = Some (tt, w') ->
       observed w' = observed demo_world.
Proof.
  assert (Hcb : Forall (fun r => turnover_callback r <> client_callback)
                  (rotors (machine demo_world)))
    by (repeat (apply List.Forall_cons; [discriminate|]);
        apply List.Forall_nil).
  split; [exact Hcb|].
  exact (proj1 (turnovers_reach_clients_only 26 demo_world) Hcb).
Defined.

(** ** Values out of range *)

Lemma encode_out_of_range (base : Z) (val : Z) (w : World) :
  base <= val ->
  rotors (machine w) <> [] ->
  encode base val w = None.
Proof.
  intros Hv Hne. rewrite encode_reads. unfold encode_value.
  destruct (rotors (machine w)) as [|r rs]; [congruence|].
  simpl. unfold doForwardCipher.
  destruct (Z.ltb_spec val base); [lia|reflexivity].
Qed.

(** X17: nothing checks a value when it is handed over; the first rotor
    does, with its [assert(val < base)].  On a machine in a valid state
    [encode] and [encodeNext] fail for a value of [base] or more, and so
    does the first draw of a generator constructed with such a seed; by
    then [encodeNext] and the draw have advanced the machine. *)
Theorem value_out_of_range_fails (base : Z) (val : Z) (w : World) :
  0 < base ->
  wf_world base w ->
  base <= val ->
  encode base val w = None
  /\ encodeNext base val w = None
  /\ Generator_call base (Generator_new val) w = None
  /\ exists w', advance base 1 w = Some (tt, w').
Proof.
  intros Hb Hwf Hv.
  destruct (advance_total base Hb 1 w Hwf) as (w' & Hadv & Hwf').
  assert (Hnext : encodeNext base val w = None).
  { unfold encodeNext, bind. rewrite Hadv.
    apply encode_out_of_range; [exact Hv|apply Hwf']. }
  split; [apply encode_out_of_range; [exact Hv|apply Hwf]|].
  split; [exact Hnext|]. split.
  - unfold Generator_call, bind. cbn [seq_val Generator_new].
    now rewrite Hnext.
  - now exists w'.
Qed.

Lemma value_out_of_range_fails_witness :
  0 < 26
  /\ wf_world 26 demo_world
  /\ 26 <= 26
  /\ encode 26 26 demo_world = None
  /\ Generator_call 26 (Generator_new 26) demo_world = None.
Proof.
  assert (Hb : 0 < 26) by lia.
  assert (Hv : 26 <= 26) by lia.
  split; [exact Hb|]. split; [exact demo_wf|]. split; [exact Hv|].
  destruct (value_out_of_range_fails 26 26 demo_world Hb demo_wf Hv)
    as (He & _ & Hg & _).
  split; [exact He|exact Hg].
Defined.
